(** * Voice-to-SQL generator: schema extraction, dialect translation,
      query generation and execution

    A shallow embedding of [python/auto_analyzer.py],
    [python/file_extraction.py] and of the [/api/generate-sql] handler of
    [app.py], with the properties of the design document proved (or
    refuted) on it.

    Conventions of the embedding.
    - A Python [str] is a [text]: a list of characters.  A character is a
      code point below 256, carried by Rocq's [ascii]; the predicates
      [str.isspace], [str.lower] and the classes [\s] and [\w] of the [re]
      module are written out for that range.
    - A compiled pattern is a [regex] syntax tree; [rmatch] is the
      backtracking matcher of the [re] module (leftmost alternative first,
      greedy or lazy repetition, capture groups, negative lookahead).
    - External collaborators (the SQL engine, the CSV parser, the language
      model, the file system) are parameters: functions returning an
      [outcome], which is either a value or a raised exception. *)

From Stdlib Require Import Strings.Ascii Strings.String Strings.Byte.
From Stdlib Require Import NArith List Bool Arith Lia.
From stdpp Require Import gmap strings list pretty.
Import ListNotations.

Set Default Proof Using "Type".

(* ================================================================== *)
(** * Part I: the embedding                                            *)
(* ================================================================== *)

(** ** Texts *)

Definition text := list ascii.

(* Carrier of the string notation for [text]. *)
Inductive text_literal := tl_nil | tl_cons (a : ascii) (t : text_literal).

Fixpoint text_literal_of_bytes (l : list Byte.byte) : text_literal :=
  match l with
  | [] => tl_nil
  | b :: l => tl_cons (ascii_of_byte b) (text_literal_of_bytes l)
  end.

Fixpoint bytes_of_text_literal (t : text_literal) : list Byte.byte :=
  match t with
  | tl_nil => []
  | tl_cons a t => byte_of_ascii a :: bytes_of_text_literal t
  end.

Declare Scope text_scope.
Delimit Scope text_scope with text.
Bind Scope text_scope with text.
#[warnings="-via-type-remapping,-via-type-mismatch"]
String Notation text text_literal_of_bytes bytes_of_text_literal
  (via text_literal mapping [[nil] => tl_nil, [cons] => tl_cons]) : text_scope.
Open Scope text_scope.

Definition text_eqb (a b : text) : bool := bool_decide (a = b).

(** ** Characters: Python's predicates on code points below 256 *)

Module Chars.

Definition code (c : ascii) : N := N_of_ascii c.

Definition between (lo hi : N) (c : ascii) : bool :=
  (lo <=? code c)%N && (code c <=? hi)%N.

(** [str.isspace] and the class [\s] of a [str] pattern: TAB..CR,
    FS..US, SPACE, NEL and NBSP. *)
Definition is_space (c : ascii) : bool :=
  between 9 13 c || between 28 32 c || (code c =? 133)%N || (code c =? 160)%N.

(** [str.isalnum] below 256: digits, letters, and the Latin-1 letters,
    superscript digits and vulgar fractions. *)
Definition is_alnum (c : ascii) : bool :=
  between 48 57 c || between 65 90 c || between 97 122 c
  || (code c =? 170)%N || between 178 179 c || (code c =? 181)%N
  || between 185 186 c || between 188 190 c
  || between 192 214 c || between 216 246 c || between 248 255 c.

(** The class [\w] of a [str] pattern: alphanumeric or underscore. *)
Definition is_word (c : ascii) : bool :=
  is_alnum c || (code c =? 95)%N.

(** [str.lower] on one character: A..Z and the Latin-1 capitals. *)
Definition lower (c : ascii) : ascii :=
  if between 65 90 c || between 192 214 c || between 216 222 c
  then ascii_of_N (code c + 32)
  else c.

Definition eqb (a b : ascii) : bool := Ascii.eqb a b.

End Chars.

(** ** Python string methods *)

Module Py.

(** [s.lower()] *)
Definition lower (s : text) : text := map Chars.lower s.

(** [s.startswith(p)] *)
Fixpoint startswith (p s : text) : bool :=
  match p, s with
  | [], _ => true
  | a :: p', c :: s' => Chars.eqb a c && startswith p' s'
  | _ :: _, [] => false
  end.

(** [s.endswith(p)] *)
Definition endswith (p s : text) : bool := startswith (rev p) (rev s).

(** [s.lstrip()], [s.rstrip()], [s.strip()] *)
Fixpoint lstrip (s : text) : text :=
  match s with
  | c :: s' => if Chars.is_space c then lstrip s' else s
  | [] => []
  end.

Definition rstrip (s : text) : text := rev (lstrip (rev s)).

Definition strip (s : text) : text := rstrip (lstrip s).

(** [s.split(sep)] for a non-empty separator: the pieces between the
    leftmost non-overlapping occurrences of [sep].  [skip] counts the
    characters of an occurrence still to be passed over. *)
Fixpoint split_from (sep : text) (skip : nat) (s : text) : list text :=
  match s with
  | [] => [[]]
  | c :: s' =>
      match skip with
      | S n => split_from sep n s'
      | O =>
          if startswith sep s
          then [] :: split_from sep (length sep - 1) s'
          else match split_from sep 0 s' with
               | p :: ps => (c :: p) :: ps
               | [] => [[c]]
               end
      end
  end.

Definition split (sep s : text) : list text := split_from sep 0 s.

(** [sep.join(parts)] *)
Fixpoint join (sep : text) (parts : list text) : text :=
  match parts with
  | [] => []
  | [p] => p
  | p :: ps => p ++ sep ++ join sep ps
  end.

(** [f.readlines()] on a text-mode file: the lines, each keeping its
    terminating line feed; a last line without one is kept as it is.
    The text is the one the text layer delivers (what [f.read()]
    returns). *)
Fixpoint readlines (s : text) : list text :=
  match s with
  | [] => []
  | c :: s' =>
      if Chars.eqb c "010"
      then [c] :: readlines s'
      else match readlines s' with
           | l :: ls => (c :: l) :: ls
           | [] => [[c]]
           end
  end.

(** [x in xs] for a list of strings *)
Definition contains (x : text) (xs : list text) : bool :=
  existsb (text_eqb x) xs.

(** [xs.count(x)] *)
Definition count (x : text) (xs : list text) : nat :=
  length (filter (fun y => x = y) xs).

(** [str(n)] for a natural number *)
Definition str_of_nat (n : nat) : text := list_ascii_of_string (pretty n).

End Py.

(** ** Exceptions *)

(** The result of a call that may raise: [Raised msg] carries [str(e)]. *)
Inductive outcome (A : Type) : Type :=
| Ok (a : A)
| Raised (msg : text).
Arguments Ok {A} a.
Arguments Raised {A} msg.

Definition bind {A B : Type} (m : outcome A) (f : A -> outcome B) : outcome B :=
  match m with
  | Ok a => f a
  | Raised e => Raised e
  end.

(** [try: m  except Exception as e: h(e)] *)
Definition try_except {A : Type} (m : outcome A) (h : text -> A) : A :=
  match m with
  | Ok a => a
  | Raised e => h e
  end.

(** ** The [re] module *)

Module Re.

(** One-character items of a pattern. *)
Inductive atom :=
| Lit (c : ascii)            (* a literal character *)
| Space                      (* \s *)
| Word                       (* \w *)
| NoneOf (cs : list ascii)   (* [^...] *)
| Dot.                       (* . *)

Inductive regex :=
| Eps
| One (a : atom)
| Seq (r1 r2 : regex)
| Alt (r1 r2 : regex)            (* r1|r2 *)
| Star (greedy : bool) (r : regex) (* r* and r*? *)
| Grp (i : nat) (r : regex)      (* capture group number i *)
| NotAhead (r : regex).          (* (?!r) *)

(** Derived forms. *)
Definition Plus (r : regex) : regex := Seq r (Star true r).   (* r+ *)
Definition Opt (r : regex) : regex := Alt r Eps.              (* r? *)
Fixpoint Str (s : text) : regex :=                            (* literal text *)
  match s with
  | [] => Eps
  | c :: s' => Seq (One (Lit c)) (Str s')
  end.

Record flags := { ignorecase : bool; dotall : bool }.

Definition IGNORECASE : flags := {| ignorecase := true; dotall := false |}.
Definition IGNORECASE_DOTALL : flags := {| ignorecase := true; dotall := true |}.

Definition atom_ok (fl : flags) (a : atom) (c : ascii) : bool :=
  match a with
  | Lit l =>
      if ignorecase fl
      then Chars.eqb (Chars.lower c) (Chars.lower l)
      else Chars.eqb c l
  | Space => Chars.is_space c
  | Word => Chars.is_word c
  | NoneOf cs => negb (existsb (Chars.eqb c) cs)
  | Dot => dotall fl || negb (Chars.eqb c "010")
  end.

(** Captures: the most recent binding of a group comes first. *)
Definition caps := list (nat * text).

Fixpoint group (i : nat) (g : caps) : option text :=
  match g with
  | [] => None
  | (j, t) :: g' => if Nat.eqb i j then Some t else group i g'
  end.

(** A match in progress: the text not yet consumed and the captures. *)
Definition cont := text -> caps -> option (text * caps).

(** The backtracking matcher, in continuation-passing style: [rmatch fl
    r s g k] matches [r] at the head of [s] and hands the rest to [k];
    when [k] fails, the next alternative of [r] is tried.  A repetition
    step that consumes nothing is abandoned. *)
Fixpoint rmatch (fl : flags) (r : regex) (s : text) (g : caps) (k : cont)
  {struct r} : option (text * caps) :=
  match r with
  | Eps => k s g
  | One a =>
      match s with
      | c :: s' => if atom_ok fl a c then k s' g else None
      | [] => None
      end
  | Seq r1 r2 => rmatch fl r1 s g (fun s' g' => rmatch fl r2 s' g' k)
  | Alt r1 r2 =>
      match rmatch fl r1 s g k with
      | Some m => Some m
      | None => rmatch fl r2 s g k
      end
  | Star greedy r1 =>
      (fix iter (n : nat) (s : text) (g : caps) {struct n} : option (text * caps) :=
         match n with
         | O => k s g
         | S n' =>
             let again :=
               rmatch fl r1 s g
                 (fun s' g' => if length s' <? length s then iter n' s' g' else None) in
             if greedy
             then match again with Some m => Some m | None => k s g end
             else match k s g with Some m => Some m | None => again end
         end) (length s) s g
  | Grp i r1 =>
      rmatch fl r1 s g
        (fun s' g' => k s' ((i, take (length s - length s') s) :: g'))
  | NotAhead r1 =>
      match rmatch fl r1 s g (fun s' g' => Some (s', g')) with
      | Some _ => None
      | None => k s g
      end
  end.

(** A match of [r] at the head of [s]: the rest of the text after the
    match, and the captures. *)
Definition match_here (fl : flags) (r : regex) (s : text) : option (text * caps) :=
  rmatch fl r s [] (fun s' g' => Some (s', g')).

(** [re.match(r, s, fl)]: anchored at the start of the text. *)
Definition re_match (fl : flags) (r : regex) (s : text) : option (text * caps) :=
  match_here fl r s.

(** [re.search(r, s, fl)]: the leftmost position where [r] matches. *)
Fixpoint search (fl : flags) (r : regex) (s : text) : option (text * caps) :=
  match match_here fl r s with
  | Some m => Some m
  | None =>
      match s with
      | [] => None
      | _ :: s' => search fl r s'
      end
  end.

(** [re.sub(r, repl, s, flags=fl)] for a replacement without group
    references: the leftmost non-overlapping matches are replaced.
    [skip] counts the characters of the current match still to be
    passed over; an empty match is replaced and the scan moves on by
    one character. *)
Fixpoint sub_from (fl : flags) (r : regex) (repl : text) (skip : nat) (s : text) : text :=
  match s with
  | [] =>
      match skip, match_here fl r [] with
      | O, Some _ => repl
      | _, _ => []
      end
  | c :: s' =>
      match skip with
      | S n => sub_from fl r repl n s'
      | O =>
          match match_here fl r s with
          | Some (rest, _) =>
              match length s - length rest with
              | O => repl ++ c :: sub_from fl r repl 0 s'
              | S n => repl ++ sub_from fl r repl n s'
              end
          | None => c :: sub_from fl r repl 0 s'
          end
      end
  end.

Definition sub (fl : flags) (r : regex) (repl : text) (s : text) : text :=
  sub_from fl r repl 0 s.

(** [re.findall(r, s, fl)]: the captures of the leftmost non-overlapping
    matches, in order.  (The caller projects the groups.) *)
Fixpoint findall_from (fl : flags) (r : regex) (skip : nat) (s : text) : list caps :=
  match s with
  | [] =>
      match skip, match_here fl r [] with
      | O, Some (_, g) => [g]
      | _, _ => []
      end
  | _ :: s' =>
      match skip with
      | S n => findall_from fl r n s'
      | O =>
          match match_here fl r s with
          | Some (rest, g) => g :: findall_from fl r (length s - length rest - 1) s'
          | None => findall_from fl r 0 s'
          end
      end
  end.

Definition findall (fl : flags) (r : regex) (s : text) : list caps :=
  findall_from fl r 0 s.

(** [m.group(i)] of a group that took part in the match; the empty text
    stands for Python's [None]/[''] of findall otherwise. *)
Definition group_text (i : nat) (g : caps) : text :=
  match group i g with
  | Some t => t
  | None => []
  end.

End Re.

(** ** python/auto_analyzer.py *)

Module AutoAnalyzer.
Import Re.

(** [r1 r2 ... rn] written in sequence. *)
Definition seqs (rs : list regex) : regex := fold_right Seq Eps rs.

Definition spaces1 : regex := Plus (One Space).          (* \s+ *)
Definition spaces0 : regex := Star true (One Space).     (* \s* *)
Definition words1 : regex := Plus (One Word).            (* \w+ *)

(** *** Query generation *)

(** The schema context is a dict with the keys ["columns"] and
    ["table_name"]; a key may be absent ([.get] supplies a default). *)
Record schema_context := {
  columns : option (list text);
  table_name : option text
}.

(** [schema_context.get("columns", [])] *)
Definition get_columns (ctx : schema_context) : list text :=
  default [] (columns ctx).

(** [schema_context.get("table_name", d)] *)
Definition get_table_name (d : text) (ctx : schema_context) : text :=
  default d (table_name ctx).

(** The prompt of lines 39-53. *)
Definition prompt (table columns_info nl_query : text) : text :=
  "You are a SQL expert. Convert the following natural language query to a valid SQLite SQL query.

Schema:
- Table: " ++ table ++ "
- Columns: " ++ columns_info ++ "

Natural language query: " ++ nl_query ++ "

Important:
1. Return ONLY the SQL query, nothing else.
2. Use SQLite syntax.
3. Do not include explanations or markdown code blocks.
4. Ensure the query is valid and executable.

SQL:".

(** Lines 56-70: cleaning of the model's answer.  [split(...)[1]] raises
    IndexError when there is no second piece. *)
Definition clean_response (response : text) : outcome text :=
  let sql_query := Py.strip response in
  bind (if Py.startswith "```" sql_query
        then match Py.split "```" sql_query with
             | _ :: piece :: _ =>
                 Ok (if Py.startswith "sql" piece then drop 3 piece else piece)
             | _ => Raised "list index out of range"
             end
        else Ok sql_query)
    (fun sql_query =>
       let sql_query := Py.strip sql_query in
       Ok (if Py.endswith ";" sql_query then sql_query else sql_query ++ ";")).

(** [generate_sql_with_gemini].  [model prompt] stands for lines 23-33 and
    55-56: importing and configuring the client, choosing the model, the
    call [generate_content(prompt)] and the access to [response.text];
    it returns the answer or raises. *)
Definition generate_sql_with_gemini (model : text -> outcome text)
    (nl_query : text) (ctx : schema_context) (gemini_key : text) : text :=
  match gemini_key with
  | [] =>
      (* Fallback heuristic *)
      let cols := get_columns ctx in
      let table := get_table_name "uploaded_table" ctx in
      if Py.contains "marks" (map Py.lower cols)
      then "SELECT AVG(marks) AS average_marks FROM " ++ table ++ ";"
      else "SELECT COUNT(*) AS row_count FROM " ++ table ++ ";"
  | _ :: _ =>
      try_except
        (let columns_info := Py.join ", " (get_columns ctx) in
         let table := get_table_name "users" ctx in
         bind (model (prompt table columns_info nl_query)) clean_response)
        (fun e =>
           (* Fall back to heuristic *)
           let cols := get_columns ctx in
           let table := get_table_name "uploaded_table" ctx in
           "SELECT COUNT(*) AS row_count FROM " ++ table ++ ";")
  end.

(** *** Dialect translation (lines 83-109) *)

(** [\s*(CREATE\s+DATABASE|USE)\s+] *)
Definition re_database_or_use : regex :=
  seqs [spaces0;
        Grp 1 (Alt (seqs [Str "CREATE"; spaces1; Str "DATABASE"]) (Str "USE"));
        spaces1].

(** [ENUM\s*\([^)]*\)] *)
Definition re_enum : regex :=
  seqs [Str "ENUM"; spaces0; Str "("; Star true (One (NoneOf [")"%char])); Str ")"].

(** [AUTO_INCREMENT] *)
Definition re_auto_increment : regex := Str "AUTO_INCREMENT".

(** [INT\s+AUTOINCREMENT\s+PRIMARY\s+KEY] *)
Definition re_int_autoincrement : regex :=
  seqs [Str "INT"; spaces1; Str "AUTOINCREMENT"; spaces1; Str "PRIMARY"; spaces1; Str "KEY"].

(** [\s+UNIQUE(?!\s+KEY)] *)
Definition re_unique : regex :=
  seqs [spaces1; Str "UNIQUE"; NotAhead (seqs [spaces1; Str "KEY"])].

(** [ALTER TABLE\s+\w+\s+ADD[^;]*;] *)
Definition re_alter_add : regex :=
  seqs [Str "ALTER TABLE"; spaces1; words1; spaces1; Str "ADD";
        Star true (One (NoneOf [";"%char])); Str ";"].

(** [CREATE INDEX[^;]*;] *)
Definition re_create_index : regex :=
  seqs [Str "CREATE INDEX"; Star true (One (NoneOf [";"%char])); Str ";"].

(** [,\s*UNIQUE\s+KEY\s+[^,)]*] *)
Definition re_unique_key : regex :=
  seqs [Str ","; spaces0; Str "UNIQUE"; spaces1; Str "KEY"; spaces1;
        Star true (One (NoneOf [","%char; ")"%char]))].

(** [,\s*KEY\s+[^,)]*] *)
Definition re_key : regex :=
  seqs [Str ","; spaces0; Str "KEY"; spaces1;
        Star true (One (NoneOf [","%char; ")"%char]))].

(** [,\s*CONSTRAINT[^,)]*] *)
Definition re_constraint : regex :=
  seqs [Str ","; spaces0; Str "CONSTRAINT";
        Star true (One (NoneOf [","%char; ")"%char]))].

(** The body of the loop over the lines (lines 86-97): [None] when the
    line is skipped, the rewritten line otherwise. *)
Definition clean_line (line : text) : option text :=
  match re_match IGNORECASE re_database_or_use line with
  | Some _ => None
  | None =>
      let line := sub IGNORECASE re_enum "TEXT" line in
      let line := sub IGNORECASE re_auto_increment "AUTOINCREMENT" line in
      let line := sub IGNORECASE re_int_autoincrement
                    "INTEGER PRIMARY KEY AUTOINCREMENT" line in
      let line := sub IGNORECASE re_unique "" line in
      Some line
  end.

(** Lines 84-99: the cleaned lines, joined. *)
Definition clean_lines (file : text) : text :=
  concat (omap clean_line (Py.readlines file)).

(** Lines 102 and 104: removal of whole statements. *)
Definition drop_alter_add (sql_text : text) : text :=
  sub IGNORECASE re_alter_add "" sql_text.

Definition drop_create_index (sql_text : text) : text :=
  sub IGNORECASE re_create_index "" sql_text.

(** Lines 107-109: removal of table constraints. *)
Definition drop_constraints (sql_text : text) : text :=
  let sql_text := sub IGNORECASE re_unique_key "" sql_text in
  let sql_text := sub IGNORECASE re_key "" sql_text in
  sub IGNORECASE re_constraint "" sql_text.

(** The text that reaches the execution loop, from the text of the file:
    lines 80-109 of [load_sql_schema_into_sqlite]. *)
Definition sanitize (file : text) : text :=
  drop_constraints (drop_create_index (drop_alter_add (clean_lines file))).

(** *** Execution of the sanitized statements (lines 111-119) *)

Section Loader.
Context {conn : Type}.

(** The engine as the loader sees it: [conn.execute(stmt)] and
    [conn.commit()] change the connection and may raise. *)
Variable execute : conn -> text -> conn * outcome unit.
Variable commit : conn -> conn * outcome unit.
(** [open(schema_path, "r", encoding="utf-8")] followed by reading. *)
Variable read_file : text -> outcome text.

(** The connection together with the statements handed to
    [conn.execute] so far, oldest first. *)
Record world := { db : conn; attempted : list text }.

(** A computation on the connection that may raise. *)
Definition act (A : Type) : Type := world -> outcome A * world.

Definition ret {A : Type} (a : A) : act A := fun w => (Ok a, w).

Definition then_ {A B : Type} (m : act A) (f : A -> act B) : act B :=
  fun w =>
    match m w with
    | (Ok a, w') => f a w'
    | (Raised e, w') => (Raised e, w')
    end.

(** [try: m  except Exception: h] *)
Definition try_ {A : Type} (m : act A) (h : act A) : act A :=
  fun w =>
    match m w with
    | (Ok a, w') => (Ok a, w')
    | (Raised _, w') => h w'
    end.

Definition conn_execute (stmt : text) : act unit :=
  fun w =>
    let (c, r) := execute (db w) stmt in
    (r, {| db := c; attempted := attempted w ++ [stmt] |}).

Definition conn_commit : act unit :=
  fun w =>
    let (c, r) := commit (db w) in
    (r, {| db := c; attempted := attempted w |}).

(** [for x in xs: body(x)] *)
Fixpoint for_each {B : Type} (xs : list B) (body : B -> act unit) : act unit :=
  match xs with
  | [] => ret tt
  | x :: xs' => then_ (body x) (fun _ => for_each xs' body)
  end.

(** The guard of line 114. *)
Definition runnable (stmt : text) : bool :=
  negb (text_eqb stmt []) && negb (Py.startswith "--" stmt).

(** Lines 112-119. *)
Definition execute_statements (sql_text : text) : act unit :=
  for_each (Py.split ";" sql_text)
    (fun stmt =>
       let stmt := Py.strip stmt in
       if runnable stmt
       then try_ (then_ (conn_execute stmt) (fun _ => conn_commit)) (ret tt)
       else ret tt).

Definition load_sql_schema_into_sqlite (schema_path : text) : act unit :=
  fun w =>
    match read_file schema_path with
    | Raised e => (Raised e, w)
    | Ok file => execute_statements (sanitize file) w
    end.

End Loader.

Arguments world conn : clear implicits.
Arguments act conn A : clear implicits.

(** *** Table-name inference *)

(** [CREATE TABLE\s+(?:IF NOT EXISTS\s+)?(\w+)] *)
Definition re_create_table : regex :=
  seqs [Str "CREATE TABLE"; spaces1;
        Opt (seqs [Str "IF NOT EXISTS"; spaces1]);
        Grp 1 words1].

Definition infer_table_name_from_sql (sql_text : text) : text :=
  match search IGNORECASE re_create_table sql_text with
  | Some (_, g) => group_text 1 g
  | None => "uploaded_table"
  end.

End AutoAnalyzer.

(** ** python/file_extraction.py *)

Module FileExtraction.
Import Re.

(** *** Tabular files *)

(** A pandas data frame: the column labels and the rows of cells. *)
Record DataFrame (scalar : Type) := {
  df_columns : list text;
  df_rows : list (list scalar)
}.
Arguments df_columns {scalar} d.
Arguments df_rows {scalar} d.

(** A row as a dict from column label to cell. *)
Definition record (scalar : Type) : Type := list (text * scalar).

(** [df.head(n)] *)
Definition head {scalar : Type} (n : nat) (df : DataFrame scalar) : DataFrame scalar :=
  {| df_columns := df_columns df; df_rows := take n (df_rows df) |}.

(** [df.to_dict(orient="records")] *)
Definition to_records {scalar : Type} (df : DataFrame scalar) : list (record scalar) :=
  map (fun row => combine (df_columns df) row) (df_rows df).

(** [len(df)] *)
Definition len {scalar : Type} (df : DataFrame scalar) : nat := length (df_rows df).

(** The dict returned by [extract_csv]. *)
Record csv_schema (scalar : Type) := {
  columns : list text;
  rows : list (record scalar);
  row_count : nat
}.
Arguments columns {scalar} c.
Arguments rows {scalar} c.
Arguments row_count {scalar} c.

Section Csv.
Context {scalar : Type}.
(** [pd.read_csv(file_path)]: the parser of the pandas library. *)
Variable read_csv : text -> outcome (DataFrame scalar).

Definition extract_csv (file_path : text) : outcome (csv_schema scalar) :=
  bind (read_csv file_path)
    (fun df =>
       Ok {| columns := df_columns df;
             rows := to_records (head 10 df);
             row_count := len df |}).

End Csv.

(** *** SQL files *)

Definition NOFLAGS : flags := {| ignorecase := false; dotall := false |}.

(** [CREATE TABLE\s+(?:IF NOT EXISTS\s+)?(\w+)\s*\((.*?)\);] *)
Definition create_table_pattern : regex :=
  AutoAnalyzer.seqs
    [Str "CREATE TABLE"; AutoAnalyzer.spaces1;
     Opt (AutoAnalyzer.seqs [Str "IF NOT EXISTS"; AutoAnalyzer.spaces1]);
     Grp 1 AutoAnalyzer.words1; AutoAnalyzer.spaces0; Str "(";
     Grp 2 (Star false (One Dot)); Str ");"].

(** [(\w+)\s+\w+] *)
Definition column_pattern : regex :=
  AutoAnalyzer.seqs [Grp 1 AutoAnalyzer.words1; AutoAnalyzer.spaces1; AutoAnalyzer.words1].

(** [INSERT INTO\s+(\w+).*?;] *)
Definition insert_pattern : regex :=
  AutoAnalyzer.seqs
    [Str "INSERT INTO"; AutoAnalyzer.spaces1; Grp 1 AutoAnalyzer.words1;
     Star false (One Dot); Str ";"].

(** The value kept for a table: the keys ["columns"] and
    ["create_statement"] come from a CREATE TABLE statement, the keys
    ["insert_count"] and ["sample_inserts"] from INSERT statements. *)
Record table_entry := {
  entry_columns : option (list text);
  create_statement : option text;
  insert_count : option nat;
  sample_inserts : option text
}.

(** Lines 24-31: the entry written for one match of the CREATE TABLE
    pattern. *)
Definition created_entry (name table_def : text) : table_entry :=
  let columns := map (group_text 1) (findall NOFLAGS column_pattern table_def) in
  {| entry_columns := Some (take 20 columns);
     create_statement := Some ("CREATE TABLE " ++ name ++ " (...)");
     insert_count := None;
     sample_inserts := None |}.

Definition record_created (tables : gmap text table_entry) (m : caps)
  : gmap text table_entry :=
  let name := group_text 1 m in
  <[name := created_entry name (group_text 2 m)]> tables.

(** Lines 38-42: the update for one table named in INSERT statements. *)
Definition record_inserts (insert_statements : list text)
    (tables : gmap text table_entry) (name : text) : gmap text table_entry :=
  let entry :=
    match tables !! name with
    | Some e => e
    | None => {| entry_columns := None; create_statement := None;
                 insert_count := Some 0; sample_inserts := Some [] |}
    end in
  let count := Py.count name insert_statements in
  <[name := {| entry_columns := entry_columns entry;
               create_statement := create_statement entry;
               insert_count := Some count;
               sample_inserts := Some (Py.str_of_nat count ++ " INSERT statements found") |}]>
    tables.

(** [extract_sql], from the content of the file.  The loop of line 37
    runs over a set: each name is visited once, in an order that does not
    matter for the resulting dict seen as a map. *)
Definition extract_sql (sql_content : text) : gmap text table_entry :=
  let matches := findall IGNORECASE_DOTALL create_table_pattern sql_content in
  let tables := foldl record_created ∅ matches in
  let insert_statements :=
    map (group_text 1) (findall IGNORECASE_DOTALL insert_pattern sql_content) in
  foldl (record_inserts insert_statements) tables (remove_dups insert_statements).

End FileExtraction.

(** ** app.py: the handler of /api/generate-sql *)

Module App.
Import AutoAnalyzer.

(** JSON values of the responses. *)
#[warnings="-register-all"] Inductive json (scalar : Type) : Type :=
| JStr (s : text)
| JCell (v : scalar)
| JArr (items : list (json scalar))
| JObj (fields : list (text * json scalar)).
Arguments JStr {scalar} s.
Arguments JCell {scalar} v.
Arguments JArr {scalar} items.
Arguments JObj {scalar} fields.

(** A response: the JSON body and the HTTP status. *)
Definition response (scalar : Type) : Type := (json scalar * nat)%type.

(** [obj[key]] of a JSON object. *)
Fixpoint field {scalar : Type} (key : text) (fields : list (text * json scalar))
  : option (json scalar) :=
  match fields with
  | [] => None
  | (k, v) :: rest => if text_eqb key k then Some v else field key rest
  end.

Definition json_of_record {scalar : Type} (r : FileExtraction.record scalar) : json scalar :=
  JObj (map (fun kv => (fst kv, JCell (snd kv))) r).

Section Handler.
Context {conn scalar : Type}.

(** The collaborators of the handler. *)
Record env := {
  GEMINI_KEY : text;
  path_exists : text -> bool;                                   (* os.path.exists *)
  read_file : text -> outcome text;                             (* open(...), read *)
  read_csv : text -> outcome (FileExtraction.DataFrame scalar); (* pd.read_csv *)
  connect : conn;                                               (* sqlite3.connect(":memory:") *)
  to_sql : FileExtraction.DataFrame scalar -> text -> conn -> conn * outcome unit;
  execute : conn -> text -> conn * outcome unit;
  commit : conn -> conn * outcome unit;
  (* conn.execute(pragma) and the names [row[1]] of the fetched rows *)
  table_info : conn -> text -> outcome (list text);
  (* pd.read_sql_query(sql, conn).to_dict(orient="records") *)
  read_sql_query : text -> conn -> outcome (list (FileExtraction.record scalar));
  model : text -> outcome text;
  (* the INSERT into query_history: user, query, sql, result count *)
  save_history : text -> text -> nat -> outcome unit
}.

Definition error_body (msg : text) : json scalar := JObj [("error", JStr msg)].

(** Lines 211-229: the engine loaded from the file, and the schema
    context; [None] for a file that is neither tabular nor SQL. *)
Definition load_context (e : env) (schema_path : text)
  : outcome (option (conn * schema_context)) :=
  let table_name := "uploaded_table" in
  if Py.endswith ".csv" (Py.lower schema_path) then
    bind (read_csv e schema_path) (fun df =>
      let (c, r) := to_sql e df table_name (connect e) in
      bind r (fun _ =>
        Ok (Some (c, {| columns := Some (FileExtraction.df_columns df);
                        table_name := Some table_name |}))))
  else if Py.endswith ".sql" (Py.lower schema_path)
          || Py.endswith ".schema" (Py.lower schema_path) then
    bind (read_file e schema_path) (fun sql_text =>
      let (r, w) :=
        load_sql_schema_into_sqlite (execute e) (commit e) (read_file e) schema_path
          {| db := connect e; attempted := [] |} in
      bind r (fun _ =>
        let table_name := infer_table_name_from_sql sql_text in
        (* Attempt to fetch column info *)
        let cols :=
          try_except
            (table_info e (db w) ("PRAGMA table_info(" ++ table_name ++ ");"))
            (fun _ => []) in
        Ok (Some (db w, {| columns := Some cols; table_name := Some table_name |}))))
  else Ok None.

(** Lines 231-258, once the engine is loaded. *)
Definition answer (e : env) (nl_query : text) (c : conn) (ctx : schema_context)
  : response scalar :=
  (* Generate SQL via Gemini (or fallback) *)
  let sql_query := generate_sql_with_gemini (model e) nl_query ctx (GEMINI_KEY e) in
  (* Execute generated SQL *)
  match read_sql_query e sql_query c with
  | Raised msg =>
      (JObj [("sql", JStr sql_query);
             ("error", JStr ("SQL execution failed: " ++ msg))], 500)
  | Ok result_rows =>
      (* Save query to history; a failure is printed and ignored *)
      let _ := try_except (save_history e nl_query sql_query (length result_rows))
                 (fun _ => tt) in
      (JObj [("sql", JStr sql_query);
             ("result", JArr (map json_of_record result_rows))], 200)
  end.

(** [generate_sql], from the fields ["query"] and ["schemaPath"] of the
    request body. *)
Definition generate_sql (e : env) (query schemaPath : option text) : response scalar :=
  match query with
  | None | Some [] => (error_body "Missing query", 400)
  | Some nl_query =>
      match schemaPath with
      | None | Some [] => (error_body "Missing or invalid schemaPath", 400)
      | Some schema_path =>
          if negb (path_exists e schema_path)
          then (error_body "Missing or invalid schemaPath", 400)
          else
            try_except
              (bind (load_context e schema_path) (fun loaded =>
                 match loaded with
                 | None => Ok (error_body "Unsupported file type", 400)
                 | Some (c, ctx) => Ok (answer e nl_query c ctx)
                 end))
              (fun msg => (error_body msg, 500))
      end
  end.

End Handler.

Arguments env conn scalar : clear implicits.

End App.

(** ** Paths: [str.rsplit] and the POSIX flavour of [os.path] *)

Module PyPath.

(** [c in s] for a one-character string [c]. *)
Definition has_char (c : ascii) (s : text) : bool := existsb (Chars.eqb c) s.

(** The pieces around the last occurrence of [c] in [s]: the two items of
    [s.rsplit(c, 1)] when [c] occurs in [s]. *)
Fixpoint rsplit_last (c : ascii) (s : text) : option (text * text) :=
  match s with
  | [] => None
  | x :: s' =>
      match rsplit_last c s' with
      | Some (before, after) => Some (x :: before, after)
      | None => if Chars.eqb x c then Some ([], s') else None
      end
  end.

(** [os.path.basename(p)]: what follows the last slash. *)
Definition basename (p : text) : text :=
  match rsplit_last "/" p with
  | Some (_, name) => name
  | None => p
  end.

(** [os.path.splitext(p)[1]]: the last dot of the base name and what
    follows it, unless only dots precede it in the base name. *)
Definition splitext_ext (p : text) : text :=
  match rsplit_last "." (basename p) with
  | Some (stem, ext) =>
      if existsb (fun c => negb (Chars.eqb c ".")) stem then "."%char :: ext else []
  | None => []
  end.

End PyPath.

(** ** app.py: the upload route /api/extract-schema *)

Module Web.

Definition ALLOWED_EXTENSIONS : gset text := {[ "csv"; "sql"; "schema" ]}.

(** [allowed_file]: a dot occurs and the text after the last dot, in
    lower case, is an allowed extension. *)
Definition allowed_file (filename : text) : bool :=
  PyPath.has_char "." filename
  && match PyPath.rsplit_last "." filename with
     | Some (_, ext) => bool_decide (Py.lower ext ∈ ALLOWED_EXTENSIONS)
     | None => false
     end.

(** An uploaded file: the name sent by the client and the content. *)
Record upload := { filename : text; content : text }.

Section ExtractSchema.
Context {scalar : Type}.

(** The collaborators of the route. *)
Record env := {
  (* tempfile.NamedTemporaryFile(delete=False, suffix=s).name *)
  make_temp : text -> outcome text;
  (* file.save(path) *)
  save : upload -> text -> outcome unit;
  read_csv : text -> outcome (FileExtraction.DataFrame scalar);   (* pd.read_csv *)
  read_file : text -> outcome text                                (* open(...), read *)
}.

(** The value under ["data"]: [{basename: extract_csv(...)}] or the dict
    of [extract_sql]. *)
Inductive schema_data :=
| CsvData (name : text) (schema : FileExtraction.csv_schema scalar)
| SqlData (tables : gmap text FileExtraction.table_entry).

(** The answers of the route: [{"filePath": ..., "data": ...}] with status
    200, or [{"error": msg}] with its status. *)
Inductive reply :=
| Extracted (filePath : text) (data : schema_data)
| Refused (msg : text) (status : nat).

Definition unsupported : reply :=
  Refused "Unsupported file type. Use .csv, .sql, or .schema" 400.

(** [extract_schema], from the entry ["file"] of [request.files]. *)
Definition extract_schema (e : env) (file : option upload) : reply :=
  match file with
  | None => Refused "No file uploaded" 400
  | Some file =>
      if text_eqb (filename file) [] then Refused "Empty filename" 400
      else if negb (allowed_file (filename file)) then unsupported
      else
        try_except
          (bind (make_temp e (PyPath.splitext_ext (filename file))) (fun temp_file_path =>
           bind (save e file temp_file_path) (fun _ =>
             (* Process the file directly *)
             if Py.endswith ".csv" temp_file_path then
               bind (FileExtraction.extract_csv (read_csv e) temp_file_path) (fun s =>
                 Ok (Extracted temp_file_path
                       (CsvData (PyPath.basename (filename file)) s)))
             else if Py.endswith ".sql" temp_file_path
                     || Py.endswith ".schema" temp_file_path then
               (* extract_sql opens and reads the file, lines 16-17 *)
               bind (read_file e temp_file_path) (fun sql_content =>
                 Ok (Extracted temp_file_path
                       (SqlData (FileExtraction.extract_sql sql_content))))
             else Ok unsupported)))
          (fun msg => Refused msg 500)
  end.

End ExtractSchema.

Arguments env scalar : clear implicits.
Arguments schema_data scalar : clear implicits.
Arguments reply scalar : clear implicits.

End Web.

(** ** auto_analyzer.py: the command line entry point *)

Module Cli.
Import AutoAnalyzer.

Section Main.
Context {conn scalar : Type}.

(** [main], from [sys.argv]: the JSON value printed on the standard
    output (the messages sent to the standard error stream are left out).
    [list_tables c] stands for lines 154-155, the query on
    [sqlite_master] and [fetchall()]; the key is read from the
    environment, [GEMINI_KEY e]. *)
Definition main (e : App.env conn scalar) (list_tables : conn -> outcome (list text))
    (argv : list text) : App.json scalar :=
  match argv with
  | _ :: nl_query :: schema_path :: _ =>
      try_except
        (let table_name := "uploaded_table" in
         bind
           (if Py.endswith ".csv" (Py.lower schema_path) then
              bind (App.read_csv e schema_path) (fun df =>
                let (c, r) := App.to_sql e df table_name (App.connect e) in
                bind r (fun _ =>
                  Ok (Some (c, {| columns := Some (FileExtraction.df_columns df);
                                  table_name := Some table_name |}))))
            else if Py.endswith ".sql" (Py.lower schema_path)
                    || Py.endswith ".schema" (Py.lower schema_path) then
              bind (App.read_file e schema_path) (fun sql_text =>
                let (r, w) :=
                  load_sql_schema_into_sqlite (App.execute e) (App.commit e)
                    (App.read_file e) schema_path
                    {| db := App.connect e; attempted := [] |} in
                bind r (fun _ =>
                  (* Verify tables were created *)
                  bind (list_tables (db w)) (fun tables =>
                    let table_name := infer_table_name_from_sql sql_text in
                    (* Attempt to fetch column info *)
                    let cols :=
                      try_except
                        (App.table_info e (db w)
                           ("PRAGMA table_info(" ++ table_name ++ ");"))
                        (fun _ => []) in
                    Ok (Some (db w, {| columns := Some cols;
                                       table_name := Some table_name |})))))
            else Ok None)
           (fun loaded =>
              match loaded with
              | None => Ok (App.error_body "Unsupported file type")
              | Some (c, ctx) =>
                  (* Generate SQL via Gemini (or fallback) *)
                  let sql_query :=
                    generate_sql_with_gemini (App.model e) nl_query ctx (App.GEMINI_KEY e) in
                  (* Execute generated SQL *)
                  match App.read_sql_query e sql_query c with
                  | Raised msg =>
                      Ok (App.JObj [("sql", App.JStr sql_query);
                                    ("error", App.JStr ("SQL execution failed: " ++ msg))])
                  | Ok result_rows =>
                      Ok (App.JObj [("sql", App.JStr sql_query);
                                    ("result",
                                     App.JArr (map App.json_of_record result_rows))])
                  end
              end))
        (fun msg => App.error_body msg)
  | _ => App.error_body "Missing arguments"
  end.

End Main.

End Cli.

(* ================================================================== *)
(** * Part II: vocabulary of the properties                            *)
(* ================================================================== *)

(** A column name that is [marks] up to case. *)
Definition matches_marks (c : text) : Prop := Py.lower c = "marks".

(** ** Closed forms of the matcher

    Direct recursive readings of what the matcher does on the simple
    shapes the patterns are made of; Part III proves them equal to
    [Re.rmatch]. *)

(** The longest prefix of characters satisfying [p], and what follows. *)
Fixpoint take_while (p : ascii -> bool) (s : text) : text :=
  match s with
  | c :: s' => if p c then c :: take_while p s' else []
  | [] => []
  end.

Fixpoint skip_while (p : ascii -> bool) (s : text) : text :=
  match s with
  | c :: s' => if p c then skip_while p s' else s
  | [] => []
  end.

(** A literal text at the head of [s]: what follows it. *)
Fixpoint lit_rest (fl : Re.flags) (l : text) (s : text) : option text :=
  match l with
  | [] => Some s
  | a :: l' =>
      match s with
      | c :: s' => if Re.atom_ok fl (Re.Lit a) c then lit_rest fl l' s' else None
      | [] => None
      end
  end.

(** A greedy repetition of one atom: the continuation is tried on the
    longest run first, then on shorter and shorter ones. *)
Fixpoint star_one (fl : Re.flags) (a : Re.atom) (s : text) (g : Re.caps) (k : Re.cont)
  : option (text * Re.caps) :=
  match s with
  | c :: s' =>
      if Re.atom_ok fl a c
      then match star_one fl a s' g k with
           | Some m => Some m
           | None => k s g
           end
      else k s g
  | [] => k s g
  end.

(** An identifier at the head of [u]: what follows it, and the
    identifier (the longest run of word characters, not empty). *)
Definition ident_at (u : text) : option (text * text) :=
  match u with
  | c :: u' =>
      if Chars.is_word c
      then Some (skip_while Chars.is_word u', c :: take_while Chars.is_word u')
      else None
  | [] => None
  end.

(** White space, not empty, at the head of [s]: what follows it. *)
Definition blank_rest (s : text) : option text :=
  match s with
  | c :: s' => if Chars.is_space c then Some (skip_while Chars.is_space s') else None
  | [] => None
  end.

(** [CREATE TABLE\s+(?:IF NOT EXISTS\s+)?(\w+)] at the head of [s]: what
    follows the match, and group 1. *)
Definition create_table_at (s : text) : option (text * text) :=
  match lit_rest Re.IGNORECASE "CREATE TABLE" s with
  | Some r =>
      match blank_rest r with
      | Some t =>
          match
            match lit_rest Re.IGNORECASE "IF NOT EXISTS" t with
            | Some t0 =>
                match blank_rest t0 with
                | Some u => ident_at u
                | None => None
                end
            | None => None
            end
          with
          | Some m => Some m
          | None => ident_at t
          end
      | None => None
      end
  | None => None
  end.

(** ** CREATE TABLE statements, as the design document words them *)

(** Equal up to case. *)
Definition ci_eq (a b : text) : Prop := Py.lower a = Py.lower b.

(** White space, not empty. *)
Definition blank (ws : text) : Prop :=
  ws <> [] /\ Forall (fun c => Chars.is_space c = true) ws.

(** An identifier: word characters, not empty. *)
Definition identifier (t : text) : Prop :=
  t <> [] /\ Forall (fun c => Chars.is_word c = true) t.

(** The identifier has ended: no word character follows. *)
Definition ends_identifier (rest : text) : Prop :=
  match rest with
  | c :: _ => Chars.is_word c = false
  | [] => True
  end.

(** [u] starts with the clause [IF NOT EXISTS] and an identifier. *)
Definition if_not_exists_clause (u : text) : Prop :=
  exists (kw ws : text) (c : ascii) (rest : text),
    u = kw ++ ws ++ c :: rest
    /\ ci_eq kw "IF NOT EXISTS" /\ blank ws /\ Chars.is_word c = true.

(** [create_table_stmt s t]: the text [s] starts with
    [CREATE TABLE [IF NOT EXISTS] t].  In the first form, what follows
    [CREATE TABLE] is not itself the clause [IF NOT EXISTS] with its
    identifier. *)
Inductive create_table_stmt : text -> text -> Prop :=
| ct_plain (kw ws t rest : text) :
    ci_eq kw "CREATE TABLE" -> blank ws -> identifier t -> ends_identifier rest ->
    ~ if_not_exists_clause (t ++ rest) ->
    create_table_stmt (kw ++ ws ++ t ++ rest) t
| ct_if_not_exists (kw ws kw2 ws2 t rest : text) :
    ci_eq kw "CREATE TABLE" -> blank ws ->
    ci_eq kw2 "IF NOT EXISTS" -> blank ws2 ->
    identifier t -> ends_identifier rest ->
    create_table_stmt (kw ++ ws ++ kw2 ++ ws2 ++ t ++ rest) t.

(** The text [lit] occurs in [s], up to case. *)
Fixpoint occurs_ci (lit s : text) : bool :=
  Py.startswith (Py.lower lit) (Py.lower s)
  || match s with
     | [] => false
     | _ :: s' => occurs_ci lit s'
     end.

(** No CREATE TABLE statement starts inside [pre], in the text [pre ++ s]. *)
Definition first_statement (pre s : text) : Prop :=
  forall (p1 p2 t' : text),
    pre = p1 ++ p2 -> p2 <> [] -> ~ create_table_stmt (p2 ++ s) t'.

(** The continuation that accepts. *)
Definition K0 : Re.cont := fun s' g' => Some (s', g').

(** [(\w+)\s+\w+] at the head of [s]: what follows the match, and
    group 1. *)
Definition column_at (s : text) : option (text * text) :=
  match ident_at s with
  | Some (r1, w) =>
      match blank_rest r1 with
      | Some r2 =>
          match ident_at r2 with
          | Some (r3, _) => Some (r3, w)
          | None => None
          end
      | None => None
      end
  | None => None
  end.

(** [c] stands in [body] as the first word of a pair
    [<word> <white space> <word>]. *)
Definition heads_word_pair (body c : text) : Prop :=
  exists (a ws : text) (d : ascii) (b : text),
    body = a ++ c ++ ws ++ d :: b
    /\ identifier c /\ blank ws /\ Chars.is_word d = true.

(** ** Fixed points of the translation *)

(** The pattern matches nowhere in [s]. *)
Definition unmatched (r : Re.regex) (s : text) : bool :=
  match Re.search Re.IGNORECASE r s with
  | Some _ => false
  | None => true
  end.

(** None of the rules of the loop over the lines applies to [line]. *)
Definition line_settled (line : text) : bool :=
  match Re.re_match Re.IGNORECASE AutoAnalyzer.re_database_or_use line with
  | Some _ => false
  | None => true
  end
  && unmatched AutoAnalyzer.re_enum line
  && unmatched AutoAnalyzer.re_auto_increment line
  && unmatched AutoAnalyzer.re_int_autoincrement line
  && unmatched AutoAnalyzer.re_unique line.

(** None of the rules of the translation applies to [y]. *)
Definition settled (y : text) : bool :=
  forallb line_settled (Py.readlines y)
  && unmatched AutoAnalyzer.re_alter_add y
  && unmatched AutoAnalyzer.re_create_index y
  && unmatched AutoAnalyzer.re_unique_key y
  && unmatched AutoAnalyzer.re_key y
  && unmatched AutoAnalyzer.re_constraint y.

(** ** Statements removed whole *)

Definition is_semicolon (c : ascii) : bool := Chars.eqb c ";".

(** The characters at which a table-constraint match stops. *)
Definition stop_char (c : ascii) : bool := Chars.eqb c "," || Chars.eqb c ")".

(** What follows the first semicolon of [r]. *)
Fixpoint semi_rest (r : text) : option text :=
  match r with
  | [] => None
  | c :: r' => if is_semicolon c then Some r' else semi_rest r'
  end.

(** [CREATE INDEX[^;]*;] at the head of [s]: what follows the match. *)
Definition create_index_at (s : text) : option text :=
  match lit_rest Re.IGNORECASE "CREATE INDEX" s with
  | Some r => semi_rest r
  | None => None
  end.

(** [ALTER TABLE\s+\w+\s+ADD[^;]*;] at the head of [s]: what follows the
    match. *)
Definition alter_add_at (s : text) : option text :=
  match lit_rest Re.IGNORECASE "ALTER TABLE" s with
  | Some r0 =>
      match blank_rest r0 with
      | Some r1 =>
          match ident_at r1 with
          | Some (r2, _) =>
              match blank_rest r2 with
              | Some r3 =>
                  match lit_rest Re.IGNORECASE "ADD" r3 with
                  | Some r4 => semi_rest r4
                  | None => None
                  end
              | None => None
              end
          | None => None
          end
      | None => None
      end
  | None => None
  end.

(** The opening of a CREATE INDEX statement. *)
Definition create_index_head (m : text) : Prop := ci_eq m "CREATE INDEX".

(** The opening of an ALTER TABLE ... ADD statement. *)
Definition alter_add_head (m : text) : Prop :=
  exists kw ws1 w ws2 kw2 : text,
    m = kw ++ ws1 ++ w ++ ws2 ++ kw2
    /\ ci_eq kw "ALTER TABLE" /\ blank ws1 /\ identifier w /\ blank ws2
    /\ ci_eq kw2 "ADD".

(** Whether only white space has been seen since the last semicolon (or
    the start of the text), after one more character. *)
Definition next_blank (b : bool) (c : ascii) : bool :=
  if is_semicolon c then true else b && Chars.is_space c.

(** Every match of [r] in [s] begins its statement: only white space
    stands between it and the preceding semicolon (or the start of the
    text).  [b] says whether that holds of the text read so far. *)
Fixpoint at_statement_heads (r : Re.regex) (b : bool) (s : text) : bool :=
  match s with
  | [] => true
  | c :: s' =>
      match Re.match_here Re.IGNORECASE r s with
      | Some _ => b
      | None => true
      end
      && at_statement_heads r (next_blank b c) s'
  end.

(** [cuts K b t o]: the text [o] is [t] without some segments that end
    with a semicolon and begin their statement; [K] holds of [t] at every
    character that is kept. *)
Inductive cuts (K : text -> Prop) : bool -> text -> text -> Prop :=
| cuts_nil (b : bool) : cuts K b [] []
| cuts_keep (b : bool) (c : ascii) (t o : text) :
    K (c :: t) -> cuts K (next_blank b c) t o -> cuts K b (c :: t) (c :: o)
| cuts_drop (b : bool) (body t o : text) :
    b = true -> cuts K true t o -> cuts K b (body ++ ";"%char :: t) o.

(** The text stops: it is empty or begins with a stop character. *)
Definition stops (t : text) : Prop :=
  match t with
  | [] => True
  | c :: _ => stop_char c = true
  end.

(** [trims t o]: the text [o] is [t] without some segments, each followed
    in [t] by a stop character or by the end of the text. *)
Inductive trims : text -> text -> Prop :=
| trims_nil : trims [] []
| trims_keep (c : ascii) (t o : text) : trims t o -> trims (c :: t) (c :: o)
| trims_drop (m t o : text) : stops t -> trims t o -> trims (m ++ t) o.

(** A character that is neither a semicolon nor a stop character. *)
Definition plain (c : ascii) : Prop := is_semicolon c = false /\ stop_char c = false.

(** No CREATE TABLE statement starts anywhere in [s]. *)
Definition no_create_table (s : text) : Prop :=
  forall (p u t : text), s = p ++ u -> ~ create_table_stmt u t.

(** [first_statement], as a test. *)
Fixpoint no_statement_in (pre s : text) : bool :=
  match pre with
  | [] => true
  | _ :: pre' =>
      match create_table_at (pre ++ s) with
      | Some _ => false
      | None => no_statement_in pre' s
      end
  end.


(** ** Entries of the extracted schema *)

(** The column list of every entry of [tables] comes from a match of the
    CREATE TABLE pattern in [sql_content]. *)
Definition from_create_table (sql_content : text)
    (tables : gmap text FileExtraction.table_entry) : Prop :=
  forall (name : text) (e : FileExtraction.table_entry) (cols : list text),
    tables !! name = Some e ->
    FileExtraction.entry_columns e = Some cols ->
    exists m : Re.caps,
      In m (Re.findall Re.IGNORECASE_DOTALL FileExtraction.create_table_pattern sql_content)
      /\ Re.group_text 1 m = name
      /\ cols = take 20 (map (Re.group_text 1)
                           (Re.findall FileExtraction.NOFLAGS FileExtraction.column_pattern
                              (Re.group_text 2 m))).

(** ** Sample collaborators *)

(** An engine without tables, every query on which fails. *)
Definition failing_env : App.env unit nat :=
  {| App.GEMINI_KEY := "";
     App.path_exists := fun _ => true;
     App.read_file := fun _ => Raised "no such file";
     App.read_csv := fun _ =>
       Ok {| FileExtraction.df_columns := ["id"; "name"];
             FileExtraction.df_rows := [[1; 2]] |};
     App.connect := tt;
     App.to_sql := fun _ _ c => (c, Ok tt);
     App.execute := fun c _ => (c, Ok tt);
     App.commit := fun c => (c, Ok tt);
     App.table_info := fun _ _ => Ok [];
     App.read_sql_query := fun _ _ => Raised "no such table: uploaded_table";
     App.model := fun _ => Raised "no model";
     App.save_history := fun _ _ _ => Ok tt |}.


(** ** Vocabulary of the further properties *)

(** A query with its terminator: lines 67-68 of auto_analyzer.py. *)
Definition terminated (q : text) : text := if Py.endswith ";" q then q else q ++ ";".

(** The two queries of the heuristic. *)
Definition average_query (table : text) : text :=
  "SELECT AVG(marks) AS average_marks FROM " ++ table ++ ";".

Definition row_count_query (table : text) : text :=
  "SELECT COUNT(*) AS row_count FROM " ++ table ++ ";".

(** The entry of a table after the loop over the INSERT statements
    (lines 38-42), from the entry it had before, if any. *)
Definition with_inserts (insert_statements : list text) (name : text)
    (old : option FileExtraction.table_entry) : FileExtraction.table_entry :=
  {| FileExtraction.entry_columns :=
       match old with Some e => FileExtraction.entry_columns e | None => None end;
     FileExtraction.create_statement :=
       match old with Some e => FileExtraction.create_statement e | None => None end;
     FileExtraction.insert_count := Some (Py.count name insert_statements);
     FileExtraction.sample_inserts :=
       Some (Py.str_of_nat (Py.count name insert_statements)
             ++ " INSERT statements found") |}.

(** The names after [CREATE TABLE] and after [INSERT INTO] that the two
    scans of [extract_sql] find, in order. *)
Definition created_names (sql_content : text) : list text :=
  map (Re.group_text 1)
    (Re.findall Re.IGNORECASE_DOTALL FileExtraction.create_table_pattern sql_content).

Definition inserted_names (sql_content : text) : list text :=
  map (Re.group_text 1)
    (Re.findall Re.IGNORECASE_DOTALL FileExtraction.insert_pattern sql_content).

(** An engine that rejects every statement and every introspection, on a
    readable schema file. *)
Definition rejecting_env : App.env unit nat :=
  {| App.GEMINI_KEY := "";
     App.path_exists := fun _ => true;
     App.read_file := fun _ => Ok "CREATE TABLE `users` (id INT);
CREATE TABLE orders (id INT, marks INT);
";
     App.read_csv := fun _ => Raised "not a table";
     App.connect := tt;
     App.to_sql := fun _ _ c => (c, Ok tt);
     App.execute := fun c _ => (c, Raised "near CREATE: syntax error");
     App.commit := fun c => (c, Ok tt);
     App.table_info := fun _ _ => Raised "database is locked";
     App.read_sql_query := fun _ _ => Raised "no such table: orders";
     App.model := fun _ => Raised "no model";
     App.save_history := fun _ _ _ => Ok tt |}.

(** Collaborators of the upload route that name the temporary file
    after its suffix. *)
Definition upload_env : Web.env nat :=
  {| Web.make_temp := fun suffix => Ok ("/tmp/tmpk3x9a_2b" ++ suffix);
     Web.save := fun _ _ => Ok tt;
     Web.read_csv := fun _ =>
       Ok {| FileExtraction.df_columns := ["id"; "marks"];
             FileExtraction.df_rows := [[1; 17]; [2; 12]] |};
     Web.read_file := fun _ => Ok "CREATE TABLE t (id INT);" |}.

(* ================================================================== *)
(** * Part III: the matcher                                            *)
(* ================================================================== *)

Import Re AutoAnalyzer.

Arguments atom_ok : simpl never.

(** ** Characters *)

Ltac by_cases_on_char c :=
  destruct c as [[] [] [] [] [] [] [] []]; vm_compute;
  first [congruence | intuition congruence].

Lemma space_not_word (c : ascii) : Chars.is_space c = true -> Chars.is_word c = false.
Proof. by_cases_on_char c. Qed.

Lemma chars_eqb_eq (a b : ascii) : Chars.eqb a b = true <-> a = b.
Proof. apply Ascii.eqb_eq. Qed.

(** ** Runs of characters *)

Lemma take_skip_while (p : ascii -> bool) (s : text) :
  take_while p s ++ skip_while p s = s.
Proof.
  induction s as [|c s IH]; cbn; [reflexivity|].
  destruct (p c); cbn; [now rewrite IH | reflexivity].
Qed.

Lemma take_while_all (p : ascii -> bool) (s : text) :
  Forall (fun c => p c = true) (take_while p s).
Proof.
  induction s as [|c s IH]; cbn; [constructor|].
  destruct (p c) eqn:E; [constructor; assumption | constructor].
Qed.

Lemma skip_while_head (p : ascii -> bool) (s : text) (c : ascii) (r : text) :
  skip_while p s = c :: r -> p c = false.
Proof.
  induction s as [|d s IH]; cbn; [discriminate|].
  destruct (p d) eqn:E; [exact IH|]. intros [= <- <-]. exact E.
Qed.

Lemma skip_while_app (p : ascii -> bool) (run rest : text) :
  Forall (fun c => p c = true) run ->
  skip_while p (run ++ rest) = skip_while p rest.
Proof.
  induction 1 as [|c run Hc _ IH]; cbn; [reflexivity|]. now rewrite Hc.
Qed.

Lemma take_while_app (p : ascii -> bool) (run rest : text) :
  Forall (fun c => p c = true) run ->
  take_while p (run ++ rest) = run ++ take_while p rest.
Proof.
  induction 1 as [|c run Hc _ IH]; cbn; [reflexivity|]. now rewrite Hc, IH.
Qed.

Lemma skip_while_stop (p : ascii -> bool) (s : text) :
  match s with c :: _ => p c = false | [] => True end -> skip_while p s = s.
Proof. destruct s as [|c s]; cbn; [reflexivity|]. now intros ->. Qed.

Lemma take_while_stop (p : ascii -> bool) (s : text) :
  match s with c :: _ => p c = false | [] => True end -> take_while p s = [].
Proof. destruct s as [|c s]; cbn; [reflexivity|]. now intros ->. Qed.

Lemma skip_while_length (p : ascii -> bool) (s : text) :
  length (skip_while p s) <= length s.
Proof.
  induction s as [|c s IH]; cbn; [lia|]. destruct (p c); cbn; lia.
Qed.

Lemma take_length_skip_while (p : ascii -> bool) (s : text) :
  take (length s - length (skip_while p s)) s = take_while p s.
Proof.
  induction s as [|c s IH]; cbn [skip_while take_while length]; [reflexivity|].
  destruct (p c).
  - pose proof (skip_while_length p s).
    replace (S (length s) - length (skip_while p s))
      with (S (length s - length (skip_while p s))) by lia.
    cbn. now rewrite IH.
  - cbn [length]. now rewrite Nat.sub_diag.
Qed.

(** ** The matcher on literals and on runs *)

Lemma rmatch_Str (fl : flags) (l s : text) (g : caps) (k : cont) :
  rmatch fl (Str l) s g k
  = match lit_rest fl l s with
    | Some r => k r g
    | None => None
    end.
Proof.
  revert s. induction l as [|a l IH]; intros s; cbn; [reflexivity|].
  destruct s as [|c s]; [reflexivity|].
  destruct (atom_ok fl (Lit a) c); [apply IH | reflexivity].
Qed.

Lemma rmatch_star_one (fl : flags) (a : atom) (s : text) (g : caps) (k : cont) :
  rmatch fl (Star true (One a)) s g k = star_one fl a s g k.
Proof.
  cbn [rmatch].
  generalize (Nat.le_refl (length s)).
  generalize (length s) at 2 3 as n.
  intros n. revert s. induction n as [|n IH]; intros s Hn.
  - destruct s; [reflexivity | cbn in Hn; lia].
  - destruct s as [|c s]; [reflexivity|].
    cbn [star_one]. destruct (atom_ok fl a c); [|reflexivity].
    replace (length s <? length (c :: s)) with true
      by (symmetry; apply Nat.ltb_lt; cbn; lia).
    rewrite IH by (cbn in Hn; lia). reflexivity.
Qed.

Lemma rmatch_plus_one (fl : flags) (a : atom) (s : text) (g : caps) (k : cont) :
  rmatch fl (Plus (One a)) s g k
  = match s with
    | c :: s' => if atom_ok fl a c then star_one fl a s' g k else None
    | [] => None
    end.
Proof.
  unfold Plus. cbn [rmatch]. destruct s as [|c s]; [reflexivity|].
  destruct (atom_ok fl a c); [|reflexivity].
  apply (rmatch_star_one fl a s g k).
Qed.

(** When the continuation cannot start on a character of the run, only
    the longest run is tried. *)
Lemma star_one_averse (fl : flags) (a : atom) (s : text) (g : caps) (k : cont) :
  (forall c s', atom_ok fl a c = true -> k (c :: s') g = None) ->
  star_one fl a s g k = k (skip_while (atom_ok fl a) s) g.
Proof.
  intros Hk. induction s as [|c s IH]; cbn; [reflexivity|].
  destruct (atom_ok fl a c) eqn:E; [|reflexivity].
  rewrite IH. destruct (k (skip_while (atom_ok fl a) s) g) eqn:Ek; [reflexivity|].
  now apply Hk.
Qed.

(** When the continuation accepts the longest run, that is the answer. *)
Lemma star_one_first (fl : flags) (a : atom) (s : text) (g : caps) (k : cont)
    (m : text * caps) :
  k (skip_while (atom_ok fl a) s) g = Some m ->
  star_one fl a s g k = Some m.
Proof.
  intros Hk. induction s as [|c s IH]; cbn in *; [exact Hk|].
  destruct (atom_ok fl a c); [now rewrite IH | exact Hk].
Qed.

(** ** What a match consumes *)

(** The continuation is called on a suffix of the text. *)
Lemma rmatch_suffix (fl : flags) (r : regex) :
  forall (s : text) (g : caps) (k : cont) (m : text * caps),
    rmatch fl r s g k = Some m ->
    exists (pre s' : text) (g' : caps), s = pre ++ s' /\ k s' g' = Some m.
Proof.
  induction r as [|a|r1 IH1 r2 IH2|r1 IH1 r2 IH2|greedy r IH|i r IH|r IH];
    intros s g k m H; cbn [rmatch] in H.
  - exists [], s, g. split; [reflexivity | exact H].
  - destruct s as [|c s]; [discriminate|].
    destruct (atom_ok fl a c); [|discriminate].
    exists [c], s, g. split; [reflexivity | exact H].
  - apply IH1 in H as (p1 & s1 & g1 & -> & H).
    apply IH2 in H as (p2 & s2 & g2 & -> & H).
    exists (p1 ++ p2), s2, g2. split; [now rewrite app_assoc | exact H].
  - destruct (rmatch fl r1 s g k) eqn:E.
    + injection H as ->. now apply IH1 in E.
    + now apply IH2 in H.
  - revert H. generalize (length s) as n. intros n. revert s g.
    induction n as [|n IHn]; intros s g H.
    + exists [], s, g. split; [reflexivity | exact H].
    + assert (Hagain :
        rmatch fl r s g
          (fun s' g' => if length s' <? length s
                        then (fix iter (n : nat) (s : text) (g : caps) {struct n}
                                : option (text * caps) :=
                                match n with
                                | O => k s g
                                | S n' =>
                                    let again :=
                                      rmatch fl r s g
                                        (fun s' g' =>
                                           if length s' <? length s
                                           then iter n' s' g' else None) in
                                    if greedy
                                    then match again with
                                         | Some m => Some m
                                         | None => k s g
                                         end
                                    else match k s g with
                                         | Some m => Some m
                                         | None => again
                                         end
                                end) n s' g'
                        else None) = Some m ->
        exists pre s' g', s = pre ++ s' /\ k s' g' = Some m).
      { intros E. apply IH in E as (p1 & s1 & g1 & -> & E).
        destruct (length s1 <? length (p1 ++ s1)); [|discriminate].
        apply IHn in E as (p2 & s2 & g2 & -> & E).
        exists (p1 ++ p2), s2, g2. split; [now rewrite app_assoc | exact E]. }
      cbn zeta in H. destruct greedy.
      * match type of H with
        | match ?X with _ => _ end = _ => destruct X eqn:E
        end.
        -- injection H as ->. now apply Hagain.
        -- exists [], s, g. split; [reflexivity | exact H].
      * destruct (k s g) eqn:Ek.
        -- injection H as ->. exists [], s, g. split; [reflexivity | exact Ek].
        -- now apply Hagain.
  - apply IH in H as (p1 & s1 & g1 & -> & H).
    eexists p1, s1, _. split; [reflexivity | exact H].
  - destruct (rmatch fl r s g (fun s' g' => Some (s', g'))); [discriminate|].
    exists [], s, g. split; [reflexivity | exact H].
Qed.

Lemma match_here_suffix (fl : flags) (r : regex) (s rest : text) (g : caps) :
  match_here fl r s = Some (rest, g) -> exists m : text, s = m ++ rest.
Proof.
  intros H. apply rmatch_suffix in H as (pre & s' & g' & -> & [= <- <-]).
  now exists pre.
Qed.

(** ** Substitution *)

Lemma sub_from_skip (fl : flags) (r : regex) (repl m rest : text) :
  sub_from fl r repl (length m) (m ++ rest) = sub_from fl r repl 0 rest.
Proof. induction m as [|c m IH]; cbn; [reflexivity | exact IH]. Qed.

Lemma sub_keep (fl : flags) (r : regex) (repl : text) (c : ascii) (s : text) :
  match_here fl r (c :: s) = None ->
  sub fl r repl (c :: s) = c :: sub fl r repl s.
Proof. intros H. unfold sub. cbn [sub_from]. now rewrite H. Qed.

Lemma sub_replace (fl : flags) (r : regex) (repl m rest : text) (g : caps) :
  m <> [] ->
  match_here fl r (m ++ rest) = Some (rest, g) ->
  sub fl r repl (m ++ rest) = repl ++ sub fl r repl rest.
Proof.
  intros Hm H. unfold sub. destruct m as [|c m]; [contradiction|].
  cbn [app sub_from]. cbn [app] in H. rewrite H.
  replace (length (c :: m ++ rest) - length rest) with (S (length m))
    by (cbn; rewrite length_app; lia).
  now rewrite sub_from_skip.
Qed.

Lemma search_None_cons (fl : flags) (r : regex) (c : ascii) (s : text) :
  search fl r (c :: s) = None ->
  match_here fl r (c :: s) = None /\ search fl r s = None.
Proof.
  cbn [search]. destruct (match_here fl r (c :: s)); [discriminate|]. now split.
Qed.

Lemma search_None_suffix (fl : flags) (r : regex) (pre s : text) :
  search fl r (pre ++ s) = None -> match_here fl r s = None.
Proof.
  induction pre as [|c pre IH]; cbn [app].
  - destruct s; cbn [search]; destruct (match_here fl r _); congruence.
  - intros H. apply search_None_cons in H as [_ H]. now apply IH.
Qed.

Lemma search_None_intro (fl : flags) (r : regex) (s : text) :
  (forall pre t, s = pre ++ t -> match_here fl r t = None) ->
  search fl r s = None.
Proof.
  induction s as [|c s IH]; intros H; cbn [search].
  - now rewrite (H [] [] eq_refl).
  - rewrite (H [] (c :: s) eq_refl). apply IH.
    intros pre t ->. now apply (H (c :: pre) t).
Qed.

(** Where the pattern matches nowhere, substitution changes nothing. *)
Lemma sub_unmatched (fl : flags) (r : regex) (repl s : text) :
  search fl r s = None -> sub fl r repl s = s.
Proof.
  induction s as [|c s IH]; intros H.
  - unfold sub. cbn in *. now destruct (match_here fl r []).
  - apply search_None_cons in H as [H1 H2].
    rewrite sub_keep by exact H1. now rewrite IH.
Qed.

(** ** Literals up to case *)

Lemma lit_rest_sound (l s r : text) :
  lit_rest IGNORECASE l s = Some r ->
  exists kw : text, s = kw ++ r /\ ci_eq kw l.
Proof.
  revert s. induction l as [|a l IH]; intros s; cbn [lit_rest].
  - intros [= ->]. now exists [].
  - destruct s as [|c s]; [discriminate|].
    destruct (atom_ok IGNORECASE (Lit a) c) eqn:E; [|discriminate].
    intros H. apply IH in H as (kw & -> & Hkw).
    exists (c :: kw). split; [reflexivity|].
    unfold ci_eq, Py.lower in *. cbn [map]. f_equal; [|exact Hkw].
    unfold atom_ok in E. cbn in E. now apply chars_eqb_eq in E.
Qed.

Lemma lit_rest_complete (l kw r : text) :
  ci_eq kw l -> lit_rest IGNORECASE l (kw ++ r) = Some r.
Proof.
  unfold ci_eq, Py.lower. revert kw.
  induction l as [|a l IH]; intros kw H; cbn [lit_rest].
  - destruct kw; [reflexivity | discriminate].
  - destruct kw as [|c kw]; [discriminate|]. cbn [map] in H.
    injection H as Hc Hkw. cbn [app].
    replace (atom_ok IGNORECASE (Lit a) c) with true.
    + now apply IH.
    + symmetry. unfold atom_ok. cbn. now apply chars_eqb_eq.
Qed.

Lemma lit_rest_nonempty (fl : flags) (a : ascii) (l s r : text) :
  lit_rest fl (a :: l) s = Some r -> length r < length s.
Proof.
  cbn [lit_rest]. destruct s as [|c s]; [discriminate|].
  destruct (atom_ok fl (Lit a) c); [|discriminate].
  revert s. induction l as [|b l IH]; intros s; cbn [lit_rest].
  - intros [= ->]. cbn. lia.
  - destruct s as [|d s]; [discriminate|].
    destruct (atom_ok fl (Lit b) d); [|discriminate].
    intros H. apply IH in H. cbn in *. lia.
Qed.

(** ** Identifiers and white space *)

Lemma rmatch_blank_averse (fl : flags) (s : text) (g : caps) (k : cont) :
  (forall c s', Chars.is_space c = true -> k (c :: s') g = None) ->
  rmatch fl spaces1 s g k
  = match blank_rest s with
    | Some t => k t g
    | None => None
    end.
Proof.
  intros Hk. unfold spaces1. rewrite rmatch_plus_one.
  destruct s as [|c s]; [reflexivity|]. cbn [blank_rest].
  change (atom_ok fl Space c) with (Chars.is_space c).
  destruct (Chars.is_space c); [|reflexivity].
  now rewrite star_one_averse by exact Hk.
Qed.

(** A group around [\w+] whose continuation accepts anything. *)
Lemma rmatch_ident_last (fl : flags) (i : nat) (u : text) (g : caps) :
  rmatch fl (Seq (Grp i words1) Eps) u g K0
  = match ident_at u with
    | Some (rest, name) => Some (rest, (i, name) :: g)
    | None => None
    end.
Proof.
  cbn [rmatch]. unfold words1. rewrite rmatch_plus_one.
  destruct u as [|c u]; [reflexivity|]. cbn [ident_at].
  change (atom_ok fl Word c) with (Chars.is_word c).
  destruct (Chars.is_word c); [|reflexivity].
  apply star_one_first.
  change (skip_while (atom_ok fl Word) u) with (skip_while Chars.is_word u).
  unfold K0. do 3 f_equal.
  change (c :: u) with ([c] ++ u).
  pose proof (take_length_skip_while Chars.is_word u) as Ht.
  pose proof (skip_while_length Chars.is_word u) as Hl.
  cbn [length app].
  replace (S (length u) - length (skip_while Chars.is_word u))
    with (S (length u - length (skip_while Chars.is_word u))) by lia.
  cbn [take]. now rewrite Ht.
Qed.

(** A group around [\w+] whose continuation cannot start on a word
    character. *)
Lemma rmatch_ident_averse (fl : flags) (i : nat) (u : text) (g : caps) (k : cont) :
  (forall c s' g', Chars.is_word c = true -> k (c :: s') g' = None) ->
  rmatch fl (Grp i words1) u g k
  = match ident_at u with
    | Some (rest, name) => k rest ((i, name) :: g)
    | None => None
    end.
Proof.
  intros Hk. cbn [rmatch]. unfold words1. rewrite rmatch_plus_one.
  destruct u as [|c u]; [reflexivity|]. cbn [ident_at].
  change (atom_ok fl Word c) with (Chars.is_word c).
  destruct (Chars.is_word c); [|reflexivity].
  rewrite star_one_averse by (intros; now apply Hk).
  change (skip_while (atom_ok fl Word) u) with (skip_while Chars.is_word u).
  do 3 f_equal.
  pose proof (take_length_skip_while Chars.is_word u) as Ht.
  pose proof (skip_while_length Chars.is_word u) as Hl.
  cbn [length].
  replace (S (length u) - length (skip_while Chars.is_word u))
    with (S (length u - length (skip_while Chars.is_word u))) by lia.
  cbn [take]. now rewrite Ht.
Qed.

Lemma ident_at_space (c : ascii) (s : text) :
  Chars.is_space c = true -> ident_at (c :: s) = None.
Proof. intros H. cbn. now rewrite (space_not_word c H). Qed.

Lemma lit_rest_space (fl : flags) (a : ascii) (l : text) (c : ascii) (s : text) :
  Chars.is_space a = false -> Chars.is_space (Chars.lower a) = false ->
  Chars.is_space c = true -> lit_rest fl (a :: l) (c :: s) = None.
Proof.
  intros Ha Hla Hc. cbn [lit_rest].
  replace (atom_ok fl (Lit a) c) with false; [reflexivity|].
  symmetry. unfold atom_ok. destruct (ignorecase fl).
  - apply not_true_is_false. intros E. apply chars_eqb_eq in E.
    assert (Chars.is_space (Chars.lower c) = true) by (revert Hc; by_cases_on_char c).
    congruence.
  - apply not_true_is_false. intros E. apply chars_eqb_eq in E. congruence.
Qed.

(** ** The CREATE TABLE pattern *)

Lemma match_here_create_table (s : text) :
  match_here IGNORECASE re_create_table s
  = match create_table_at s with
    | Some (rest, name) => Some (rest, [(1, name)])
    | None => None
    end.
Proof.
  unfold match_here, re_create_table, create_table_at, seqs. cbn [fold_right].
  change (rmatch IGNORECASE (Seq (Str "CREATE TABLE") ?r) s [] ?k)
    with (rmatch IGNORECASE (Str "CREATE TABLE") s []
            (fun s' g' => rmatch IGNORECASE r s' g' k)).
  rewrite rmatch_Str.
  destruct (lit_rest IGNORECASE "CREATE TABLE" s) as [r|]; [|reflexivity].
  change (rmatch IGNORECASE (Seq spaces1 ?r') r [] ?k)
    with (rmatch IGNORECASE spaces1 r []
            (fun s' g' => rmatch IGNORECASE r' s' g' k)).
  assert (Hw : forall t g,
    rmatch IGNORECASE (Seq (Grp 1 words1) Eps) t g (fun s' g' => Some (s', g'))
    = match ident_at t with
      | Some (rest, name) => Some (rest, (1, name) :: g)
      | None => None
      end) by (intros; apply rmatch_ident_last).
  assert (Hopt : forall t,
    rmatch IGNORECASE
      (Seq (Opt (Seq (Str "IF NOT EXISTS") (Seq spaces1 Eps)))
         (Seq (Grp 1 words1) Eps)) t [] (fun s' g' => Some (s', g'))
    = match
        match
          match lit_rest IGNORECASE "IF NOT EXISTS" t with
          | Some t0 => match blank_rest t0 with
                       | Some u => ident_at u
                       | None => None
                       end
          | None => None
          end
        with
        | Some m => Some m
        | None => ident_at t
        end
      with
      | Some (rest, name) => Some (rest, [(1, name)])
      | None => None
      end).
  { intros t. unfold Opt.
    change (rmatch IGNORECASE (Seq (Alt ?a Eps) ?w) t [] ?k)
      with (match rmatch IGNORECASE a t [] (fun s' g' => rmatch IGNORECASE w s' g' k) with
            | Some m => Some m
            | None => rmatch IGNORECASE w t [] k
            end).
    change (rmatch IGNORECASE (Seq (Str "IF NOT EXISTS") ?r') t [] ?k)
      with (rmatch IGNORECASE (Str "IF NOT EXISTS") t []
              (fun s' g' => rmatch IGNORECASE r' s' g' k)).
    rewrite rmatch_Str, Hw.
    destruct (lit_rest IGNORECASE "IF NOT EXISTS" t) as [t0|]; [|reflexivity].
    change (rmatch IGNORECASE (Seq spaces1 Eps) t0 [] ?k)
      with (rmatch IGNORECASE spaces1 t0 [] k).
    rewrite rmatch_blank_averse.
    - destruct (blank_rest t0) as [u|]; [|reflexivity].
      rewrite Hw. destruct (ident_at u) as [[rest name]|]; reflexivity.
    - intros c s' Hc. rewrite Hw. now rewrite ident_at_space. }
  rewrite rmatch_blank_averse.
  - destruct (blank_rest r) as [t|]; [|reflexivity]. apply Hopt.
  - intros c s' Hc. rewrite Hopt.
    rewrite lit_rest_space by (reflexivity || exact Hc).
    now rewrite ident_at_space.
Qed.

(** ** Statements and the closed form *)

Lemma blank_rest_sound (r u : text) :
  blank_rest r = Some u ->
  exists ws : text,
    r = ws ++ u /\ blank ws
    /\ match u with c :: _ => Chars.is_space c = false | [] => True end.
Proof.
  destruct r as [|c r]; cbn [blank_rest]; [discriminate|].
  destruct (Chars.is_space c) eqn:Hc; [|discriminate].
  intros [= <-]. exists (c :: take_while Chars.is_space r). repeat split.
  - cbn [app]. now rewrite take_skip_while.
  - discriminate.
  - constructor; [exact Hc | apply take_while_all].
  - destruct (skip_while Chars.is_space r) eqn:E; [exact I|].
    now apply skip_while_head in E.
Qed.

Lemma blank_rest_complete (ws u : text) :
  blank ws ->
  match u with c :: _ => Chars.is_space c = false | [] => True end ->
  blank_rest (ws ++ u) = Some u.
Proof.
  intros [Hne Hall] Hu. destruct ws as [|c ws]; [contradiction|].
  inversion Hall as [|? ? Hc Hws]; subst. cbn [app blank_rest]. rewrite Hc.
  rewrite skip_while_app by exact Hws. now rewrite skip_while_stop.
Qed.

Lemma ident_at_sound (u rest t : text) :
  ident_at u = Some (rest, t) ->
  u = t ++ rest /\ identifier t /\ ends_identifier rest.
Proof.
  destruct u as [|c u]; cbn [ident_at]; [discriminate|].
  destruct (Chars.is_word c) eqn:Hc; [|discriminate].
  intros [= <- <-]. repeat split.
  - cbn [app]. now rewrite take_skip_while.
  - discriminate.
  - constructor; [exact Hc | apply take_while_all].
  - unfold ends_identifier. destruct (skip_while Chars.is_word u) eqn:E; [exact I|].
    now apply skip_while_head in E.
Qed.

Lemma ident_at_complete (t rest : text) :
  identifier t -> ends_identifier rest -> ident_at (t ++ rest) = Some (rest, t).
Proof.
  intros [Hne Hall] Hrest. destruct t as [|c t]; [contradiction|].
  inversion Hall as [|? ? Hc Ht]; subst. cbn [app ident_at]. rewrite Hc.
  rewrite skip_while_app, take_while_app by exact Ht.
  rewrite skip_while_stop, take_while_stop by exact Hrest.
  now rewrite app_nil_r.
Qed.

Lemma identifier_head_not_space (t rest : text) :
  identifier t ->
  match t ++ rest with c :: _ => Chars.is_space c = false | [] => True end.
Proof.
  intros [Hne Hall]. destruct t as [|c t]; [contradiction|].
  inversion Hall as [|? ? Hc _]; subst. cbn [app].
  destruct (Chars.is_space c) eqn:E; [|reflexivity].
  apply space_not_word in E. congruence.
Qed.

Lemma keyword_head_not_space (kw lit rest : text) (a : ascii) :
  ci_eq kw (a :: lit) -> Chars.is_space (Chars.lower a) = false ->
  match kw ++ rest with c :: _ => Chars.is_space c = false | [] => True end.
Proof.
  unfold ci_eq, Py.lower. destruct kw as [|c kw]; [discriminate|].
  cbn [map app]. intros [= Hc _] Ha.
  destruct (Chars.is_space c) eqn:E; [|reflexivity].
  assert (Chars.is_space (Chars.lower c) = true) by (revert E; by_cases_on_char c).
  congruence.
Qed.

(** The clause IF NOT EXISTS with its identifier, in closed form. *)
Lemma if_not_exists_clause_closed (u : text) :
  if_not_exists_clause u <->
  exists m,
    match lit_rest IGNORECASE "IF NOT EXISTS" u with
    | Some t0 => match blank_rest t0 with
                 | Some v => ident_at v
                 | None => None
                 end
    | None => None
    end = Some m.
Proof.
  split.
  - intros (kw & ws & c & rest & -> & Hkw & Hws & Hc).
    rewrite (lit_rest_complete _ kw _ Hkw).
    rewrite blank_rest_complete; [|exact Hws|].
    + cbn [ident_at]. rewrite Hc. eauto.
    + destruct (Chars.is_space c) eqn:E; [|reflexivity].
      apply space_not_word in E. congruence.
  - intros [[rest t] H].
    destruct (lit_rest IGNORECASE "IF NOT EXISTS" u) as [t0|] eqn:E0; [|discriminate].
    destruct (blank_rest t0) as [v|] eqn:E1; [|discriminate].
    apply lit_rest_sound in E0 as (kw & -> & Hkw).
    apply blank_rest_sound in E1 as (ws & -> & Hws & _).
    destruct v as [|c v]; [discriminate|]. cbn [ident_at] in H.
    destruct (Chars.is_word c) eqn:Hc; [|discriminate].
    exists kw, ws, c, v. auto.
Qed.

Lemma create_table_at_complete (s t : text) :
  create_table_stmt s t -> exists rest, create_table_at s = Some (rest, t).
Proof.
  intros H. unfold create_table_at.
  destruct H as [kw ws t rest Hkw Hws Ht Hrest Hno
                |kw ws kw2 ws2 t rest Hkw Hws Hkw2 Hws2 Ht Hrest].
  - rewrite (lit_rest_complete _ kw _ Hkw).
    rewrite blank_rest_complete;
      [|exact Hws|now apply identifier_head_not_space].
    destruct (match lit_rest IGNORECASE "IF NOT EXISTS" (t ++ rest) with
              | Some t0 => _ | None => None end) as [m|] eqn:E.
    + exfalso. apply Hno. apply if_not_exists_clause_closed. eauto.
    + rewrite ident_at_complete by assumption. eauto.
  - rewrite (lit_rest_complete _ kw _ Hkw).
    rewrite blank_rest_complete;
      [|exact Hws|now apply (keyword_head_not_space kw2 _ _ _ Hkw2)].
    rewrite (lit_rest_complete _ kw2 _ Hkw2).
    rewrite blank_rest_complete;
      [|exact Hws2|now apply identifier_head_not_space].
    rewrite ident_at_complete by assumption. eauto.
Qed.

Lemma create_table_at_sound (s rest t : text) :
  create_table_at s = Some (rest, t) -> create_table_stmt s t.
Proof.
  unfold create_table_at.
  destruct (lit_rest IGNORECASE "CREATE TABLE" s) as [r|] eqn:E0; [|discriminate].
  destruct (blank_rest r) as [u|] eqn:E1; [|discriminate].
  apply lit_rest_sound in E0 as (kw & -> & Hkw).
  apply blank_rest_sound in E1 as (ws & -> & Hws & _).
  destruct (lit_rest IGNORECASE "IF NOT EXISTS" u) as [t0|] eqn:E2.
  - destruct (blank_rest t0) as [v|] eqn:E3.
    + destruct (ident_at v) as [m|] eqn:E4.
      * intros [= ->].
        apply lit_rest_sound in E2 as (kw2 & -> & Hkw2).
        apply blank_rest_sound in E3 as (ws2 & -> & Hws2 & _).
        apply ident_at_sound in E4 as (-> & Ht & Hrest).
        now apply ct_if_not_exists.
      * intros H. pose proof H as H'.
        apply ident_at_sound in H as (-> & Ht & Hrest).
        apply ct_plain; try assumption.
        intros Hc. apply if_not_exists_clause_closed in Hc as [m Hm].
        rewrite E2, E3, E4 in Hm. discriminate.
    + intros H. pose proof H as H'.
      apply ident_at_sound in H as (-> & Ht & Hrest).
      apply ct_plain; try assumption.
      intros Hc. apply if_not_exists_clause_closed in Hc as [m Hm].
      rewrite E2, E3 in Hm. discriminate.
  - intros H. pose proof H as H'.
    apply ident_at_sound in H as (-> & Ht & Hrest).
    apply ct_plain; try assumption.
    intros Hc. apply if_not_exists_clause_closed in Hc as [m Hm].
    rewrite E2 in Hm. discriminate.
Qed.

Lemma lit_rest_startswith (l s r : text) :
  lit_rest IGNORECASE l s = Some r ->
  Py.startswith (Py.lower l) (Py.lower s) = true.
Proof.
  revert s. induction l as [|a l IH]; intros s; cbn [lit_rest]; [reflexivity|].
  destruct s as [|c s]; [discriminate|].
  destruct (atom_ok IGNORECASE (Lit a) c) eqn:E; [|discriminate].
  intros H. apply IH in H. unfold Py.lower in *. cbn [map Py.startswith].
  rewrite H, andb_true_r.
  unfold atom_ok in E. cbn in E. apply chars_eqb_eq in E.
  apply chars_eqb_eq. congruence.
Qed.

Lemma occurs_ci_suffix (lit pre s : text) :
  occurs_ci lit (pre ++ s) = false -> occurs_ci lit s = false.
Proof.
  induction pre as [|c pre IH]; [trivial|].
  cbn [app occurs_ci]. intros H. apply orb_false_iff in H as [_ H]. now apply IH.
Qed.

Lemma occurs_ci_head (lit s : text) :
  occurs_ci lit s = false -> Py.startswith (Py.lower lit) (Py.lower s) = false.
Proof. destruct s; cbn [occurs_ci]; intros H; now apply orb_false_iff in H as [H _]. Qed.

(** The first place where a pattern matches. *)
Lemma search_first (fl : flags) (r : regex) (pre s : text) (m : text * caps) :
  (forall p1 p2, pre = p1 ++ p2 -> p2 <> [] -> match_here fl r (p2 ++ s) = None) ->
  match_here fl r s = Some m ->
  search fl r (pre ++ s) = Some m.
Proof.
  intros Hpre Hs. induction pre as [|c pre IH]; cbn [app].
  - destruct s; cbn [search]; now rewrite Hs.
  - cbn [search]. pose proof (Hpre [] (c :: pre) eq_refl) as H0.
    cbn [app] in H0. rewrite H0 by discriminate.
    apply IH. intros p1 p2 -> Hp2. now apply (Hpre (c :: p1) p2).
Qed.

Lemma search_Some (fl : flags) (r : regex) (s : text) (m : text * caps) :
  search fl r s = Some m ->
  exists pre t, s = pre ++ t /\ match_here fl r t = Some m.
Proof.
  induction s as [|c s IH]; cbn [search].
  - destruct (match_here fl r []) eqn:E; [|discriminate].
    intros [= <-]. now exists [], [].
  - destruct (match_here fl r (c :: s)) eqn:E.
    + intros [= <-]. now exists [], (c :: s).
    + intros H. apply IH in H as (pre & t & -> & H). now exists (c :: pre), t.
Qed.

(** ** The column pattern *)

Lemma rmatch_words_last (fl : flags) (u : text) (g : caps) :
  rmatch fl (Seq words1 Eps) u g K0
  = match ident_at u with
    | Some (rest, _) => Some (rest, g)
    | None => None
    end.
Proof.
  cbn [rmatch]. unfold words1. rewrite rmatch_plus_one.
  destruct u as [|c u]; [reflexivity|]. cbn [ident_at].
  change (atom_ok fl Word c) with (Chars.is_word c).
  destruct (Chars.is_word c); [|reflexivity].
  now apply star_one_first.
Qed.

Lemma blank_rest_word (c : ascii) (s : text) :
  Chars.is_word c = true -> blank_rest (c :: s) = None.
Proof.
  intros H. cbn. destruct (Chars.is_space c) eqn:E; [|reflexivity].
  apply space_not_word in E. congruence.
Qed.

Lemma match_here_column (s : text) :
  match_here FileExtraction.NOFLAGS FileExtraction.column_pattern s
  = match column_at s with
    | Some (rest, w) => Some (rest, [(1, w)])
    | None => None
    end.
Proof.
  unfold match_here, FileExtraction.column_pattern, column_at, seqs.
  cbn [fold_right].
  set (fl := FileExtraction.NOFLAGS).
  assert (Hlast : forall u g,
    rmatch fl (Seq words1 Eps) u g (fun s' g' => Some (s', g'))
    = match ident_at u with
      | Some (rest, _) => Some (rest, g)
      | None => None
      end) by (intros; apply rmatch_words_last).
  assert (Hmid : forall r1 g,
    rmatch fl (Seq spaces1 (Seq words1 Eps)) r1 g (fun s' g' => Some (s', g'))
    = match blank_rest r1 with
      | Some r2 => match ident_at r2 with
                   | Some (r3, _) => Some (r3, g)
                   | None => None
                   end
      | None => None
      end).
  { intros r1 g.
    change (rmatch fl (Seq spaces1 ?r') r1 g ?k)
      with (rmatch fl spaces1 r1 g (fun s' g' => rmatch fl r' s' g' k)).
    rewrite rmatch_blank_averse.
    - destruct (blank_rest r1); [apply Hlast | reflexivity].
    - intros c s' Hc. rewrite Hlast. now rewrite ident_at_space. }
  change (rmatch fl (Seq (Grp 1 words1) ?r') s [] ?k)
    with (rmatch fl (Grp 1 words1) s [] (fun s' g' => rmatch fl r' s' g' k)).
  rewrite rmatch_ident_averse.
  - destruct (ident_at s) as [[r1 w]|]; [|reflexivity].
    rewrite Hmid. destruct (blank_rest r1) as [r2|]; [|reflexivity].
    destruct (ident_at r2) as [[r3 w2]|]; reflexivity.
  - intros c s' g' Hc. rewrite Hmid. now rewrite blank_rest_word.
Qed.

Lemma column_at_pair (p t rest w : text) :
  column_at t = Some (rest, w) -> heads_word_pair (p ++ t) w.
Proof.
  unfold column_at.
  destruct (ident_at t) as [[r1 w1]|] eqn:E1; [|discriminate].
  destruct (blank_rest r1) as [r2|] eqn:E2; [|discriminate].
  destruct (ident_at r2) as [[r3 w2]|] eqn:E3; [|discriminate].
  intros [= <- <-].
  apply ident_at_sound in E1 as (-> & Hw & _).
  apply blank_rest_sound in E2 as (ws & -> & Hws & _).
  destruct r2 as [|d r2]; [discriminate|]. cbn [ident_at] in E3.
  destruct (Chars.is_word d) eqn:Hd; [|discriminate].
  exists p, ws, d, r2. auto.
Qed.

(** ** All matches *)

Lemma findall_from_Forall (fl : flags) (r : regex) (P : caps -> Prop) (whole : text) :
  (forall p t rest g, whole = p ++ t -> match_here fl r t = Some (rest, g) -> P g) ->
  forall (s p : text) (n : nat),
    whole = p ++ s -> Forall P (findall_from fl r n s).
Proof.
  intros HP s. induction s as [|c s IH]; intros p n Hw; cbn [findall_from].
  - destruct n; [|constructor].
    destruct (match_here fl r []) as [[rest g]|] eqn:E; [|constructor].
    constructor; [|constructor]. now apply (HP p [] rest g).
  - assert (Hw' : whole = (p ++ [c]) ++ s) by now rewrite <- app_assoc.
    destruct n; [|now apply (IH (p ++ [c]))].
    destruct (match_here fl r (c :: s)) as [[rest g]|] eqn:E.
    + constructor; [now apply (HP p (c :: s) rest g)|now apply (IH (p ++ [c]))].
    + now apply (IH (p ++ [c])).
Qed.

Lemma columns_are_pair_heads (body : text) :
  Forall (heads_word_pair body)
    (map (group_text 1)
       (findall FileExtraction.NOFLAGS FileExtraction.column_pattern body)).
Proof.
  apply Forall_map.
  apply (findall_from_Forall _ _ _ body) with (p := []); [|reflexivity].
  intros p t rest g -> H. rewrite match_here_column in H.
  destruct (column_at t) as [[rest' w]|] eqn:E; [|discriminate].
  injection H as <- <-. cbn. now apply (column_at_pair p t rest').
Qed.

(** ** The statement patterns *)

Lemma lower_semicolon (c : ascii) : Chars.lower c = ";"%char -> c = ";"%char.
Proof. by_cases_on_char c. Qed.

Lemma semi_rest_In (r : text) : In ";"%char r <-> semi_rest r <> None.
Proof.
  induction r as [|c r IH]; cbn [semi_rest In].
  - split; [contradiction | congruence].
  - unfold is_semicolon. destruct (Chars.eqb c ";") eqn:E.
    + apply chars_eqb_eq in E. split; [discriminate | now left].
    + rewrite <- IH. split; [|now right].
      intros [->|H]; [|exact H]. now rewrite (proj2 (chars_eqb_eq _ _) eq_refl) in E.
Qed.

Lemma semi_rest_split (r r' : text) :
  semi_rest r = Some r' -> exists body, r = body ++ ";"%char :: r'.
Proof.
  induction r as [|c r IH]; cbn [semi_rest]; [discriminate|].
  unfold is_semicolon. destruct (Chars.eqb c ";") eqn:E.
  - apply chars_eqb_eq in E. intros [= <-]. exists []. now rewrite E.
  - intros H. apply IH in H as [body ->]. now exists (c :: body).
Qed.

(** The tail [[^;]*;] of a statement pattern. *)
Lemma rmatch_semi_tail (r : text) (g : caps) :
  rmatch IGNORECASE (Seq (Star true (One (NoneOf [";"%char]))) (Seq (Str ";") Eps)) r g K0
  = match semi_rest r with
    | Some r' => Some (r', g)
    | None => None
    end.
Proof.
  change (rmatch IGNORECASE (Seq (Star true (One (NoneOf [";"%char]))) (Seq (Str ";") Eps)) r g K0)
    with (rmatch IGNORECASE (Star true (One (NoneOf [";"%char]))) r g
            (fun s' g' => rmatch IGNORECASE (Str ";") s' g' K0)).
  rewrite rmatch_star_one.
  induction r as [|c r IH]; cbn [star_one semi_rest].
  - rewrite rmatch_Str. reflexivity.
  - unfold is_semicolon.
    replace (atom_ok IGNORECASE (NoneOf [";"%char]) c) with (negb (Chars.eqb c ";"))
      by (unfold atom_ok; cbn; now rewrite orb_false_r).
    destruct (Chars.eqb c ";") eqn:E; cbn [negb].
    + rewrite rmatch_Str. cbn [lit_rest].
      apply chars_eqb_eq in E. subst c.
      replace (atom_ok IGNORECASE (Lit ";") ";") with true by reflexivity.
      reflexivity.
    + rewrite IH. destruct (semi_rest r); [reflexivity|].
      rewrite rmatch_Str. cbn [lit_rest].
      replace (atom_ok IGNORECASE (Lit ";") c) with false; [reflexivity|].
      symmetry. apply not_true_is_false. intros H.
      unfold atom_ok in H. cbn in H. apply chars_eqb_eq in H.
      change (Chars.lower ";") with ";"%char in H. apply lower_semicolon in H.
      subst c. now rewrite (proj2 (chars_eqb_eq _ _) eq_refl) in E.
Qed.

Lemma match_here_create_index (s : text) :
  match_here IGNORECASE re_create_index s
  = match create_index_at s with
    | Some r => Some (r, [])
    | None => None
    end.
Proof.
  unfold match_here, re_create_index, create_index_at, seqs. cbn [fold_right].
  change (rmatch IGNORECASE (Seq (Str "CREATE INDEX") ?r) s [] ?k)
    with (rmatch IGNORECASE (Str "CREATE INDEX") s []
            (fun s' g' => rmatch IGNORECASE r s' g' k)).
  rewrite rmatch_Str.
  destruct (lit_rest IGNORECASE "CREATE INDEX" s) as [r|]; [|reflexivity].
  change (rmatch IGNORECASE (Seq ?a (Seq ?b Eps)) r [] ?k)
    with (rmatch IGNORECASE (Seq a b) r [] k).
  apply (rmatch_semi_tail r []).
Qed.

Lemma rmatch_seq_Str (fl : flags) (l : text) (R : regex) (s : text) (g : caps) (k : cont) :
  rmatch fl (Seq (Str l) R) s g k
  = match lit_rest fl l s with
    | Some r => rmatch fl R r g k
    | None => None
    end.
Proof. cbn [rmatch]. now rewrite rmatch_Str. Qed.

Lemma rmatch_seq_spaces_head (fl : flags) (R : regex) (c : ascii) (s : text)
    (g : caps) (k : cont) :
  Chars.is_space c = false -> rmatch fl (Seq spaces1 R) (c :: s) g k = None.
Proof.
  intros H. cbn [rmatch]. unfold spaces1. rewrite rmatch_plus_one.
  change (atom_ok fl Space c) with (Chars.is_space c). now rewrite H.
Qed.

Lemma rmatch_seq_words_head (fl : flags) (R : regex) (c : ascii) (s : text)
    (g : caps) (k : cont) :
  Chars.is_word c = false -> rmatch fl (Seq words1 R) (c :: s) g k = None.
Proof.
  intros H. cbn [rmatch]. unfold words1. rewrite rmatch_plus_one.
  change (atom_ok fl Word c) with (Chars.is_word c). now rewrite H.
Qed.

Lemma rmatch_seq_blank (fl : flags) (R : regex) (s : text) (g : caps) (k : cont) :
  (forall c s', Chars.is_space c = true -> rmatch fl R (c :: s') g k = None) ->
  rmatch fl (Seq spaces1 R) s g k
  = match blank_rest s with
    | Some t => rmatch fl R t g k
    | None => None
    end.
Proof.
  intros H. cbn [rmatch].
  now rewrite (rmatch_blank_averse fl s g (fun s' g' => rmatch fl R s' g' k)).
Qed.

Lemma rmatch_seq_words (fl : flags) (R : regex) (s : text) (g : caps) (k : cont) :
  (forall c s', Chars.is_word c = true -> rmatch fl R (c :: s') g k = None) ->
  rmatch fl (Seq words1 R) s g k
  = match ident_at s with
    | Some (rest, _) => rmatch fl R rest g k
    | None => None
    end.
Proof.
  intros H. cbn [rmatch]. unfold words1. rewrite rmatch_plus_one.
  destruct s as [|c s]; [reflexivity|]. cbn [ident_at].
  change (atom_ok fl Word c) with (Chars.is_word c).
  destruct (Chars.is_word c); [|reflexivity].
  now rewrite star_one_averse by (intros; now apply H).
Qed.

Lemma match_here_alter_add (s : text) :
  match_here IGNORECASE re_alter_add s
  = match alter_add_at s with
    | Some r => Some (r, [])
    | None => None
    end.
Proof.
  unfold match_here, re_alter_add, alter_add_at, seqs. cbn [fold_right].
  rewrite rmatch_seq_Str.
  destruct (lit_rest IGNORECASE "ALTER TABLE" s) as [r0|]; [|reflexivity].
  rewrite rmatch_seq_blank
    by (intros c s' Hc; apply rmatch_seq_words_head; now apply space_not_word).
  destruct (blank_rest r0) as [r1|]; [|reflexivity].
  rewrite rmatch_seq_words.
  2:{ intros c s' Hc. apply rmatch_seq_spaces_head.
      destruct (Chars.is_space c) eqn:E; [|reflexivity].
      apply space_not_word in E. congruence. }
  destruct (ident_at r1) as [[r2 w]|]; [|reflexivity].
  rewrite rmatch_seq_blank.
  2:{ intros c s' Hc. rewrite rmatch_seq_Str.
      now rewrite lit_rest_space by (reflexivity || exact Hc). }
  destruct (blank_rest r2) as [r3|]; [|reflexivity].
  rewrite rmatch_seq_Str.
  destruct (lit_rest IGNORECASE "ADD" r3) as [r4|]; [|reflexivity].
  apply (rmatch_semi_tail r4 []).
Qed.

(** ** Openings of the statements *)

Lemma lower_plain (c : ascii) :
  is_semicolon (Chars.lower c) = false -> stop_char (Chars.lower c) = false -> plain c.
Proof. unfold plain. by_cases_on_char c. Qed.

Lemma space_plain (c : ascii) : Chars.is_space c = true -> plain c.
Proof. unfold plain. by_cases_on_char c. Qed.

Lemma word_plain (c : ascii) : Chars.is_word c = true -> plain c.
Proof. unfold plain. by_cases_on_char c. Qed.

Lemma keyword_plain (kw lit : text) :
  ci_eq kw lit ->
  forallb (fun l => negb (is_semicolon (Chars.lower l)) && negb (stop_char (Chars.lower l))) lit
  = true ->
  Forall plain kw.
Proof.
  unfold ci_eq, Py.lower. revert lit.
  induction kw as [|c kw IH]; intros lit H Hlit; [constructor|].
  destruct lit as [|l lit]; [discriminate|]. cbn [map] in H. injection H as Hc Hkw.
  cbn [forallb] in Hlit. apply andb_true_iff in Hlit as [Hl Hlit].
  apply andb_true_iff in Hl as [H1 H2].
  apply negb_true_iff in H1, H2. rewrite <- Hc in H1, H2.
  constructor; [now apply lower_plain | now apply (IH lit)].
Qed.

Lemma create_index_sound (s : text) :
  match_here IGNORECASE re_create_index s <> None ->
  exists m r, s = m ++ r /\ create_index_head m /\ In ";"%char r.
Proof.
  rewrite match_here_create_index. unfold create_index_at.
  destruct (lit_rest IGNORECASE "CREATE INDEX" s) as [r|] eqn:E; [|congruence].
  intros H. apply lit_rest_sound in E as (m & -> & Hm).
  exists m, r. split; [reflexivity|]. split; [exact Hm|].
  apply semi_rest_In. now destruct (semi_rest r).
Qed.

Lemma create_index_complete (m r : text) :
  create_index_head m -> In ";"%char r ->
  match_here IGNORECASE re_create_index (m ++ r) <> None.
Proof.
  intros Hm Hr. rewrite match_here_create_index. unfold create_index_at.
  rewrite (lit_rest_complete _ m r Hm).
  apply semi_rest_In in Hr. now destruct (semi_rest r).
Qed.

Lemma create_index_chars (m : text) :
  create_index_head m ->
  exists c m', m = c :: m' /\ Chars.is_space c = false /\ Forall plain m.
Proof.
  intros Hm. pose proof (keyword_head_not_space m _ [] _ Hm eq_refl) as Hh.
  destruct m as [|c m]; [discriminate Hm|].
  exists c, m. split; [reflexivity|]. split; [exact Hh|].
  now apply (keyword_plain _ _ Hm).
Qed.

Lemma alter_add_sound (s : text) :
  match_here IGNORECASE re_alter_add s <> None ->
  exists m r, s = m ++ r /\ alter_add_head m /\ In ";"%char r.
Proof.
  rewrite match_here_alter_add. unfold alter_add_at.
  destruct (lit_rest IGNORECASE "ALTER TABLE" s) as [r0|] eqn:E0; [|congruence].
  destruct (blank_rest r0) as [r1|] eqn:E1; [|congruence].
  destruct (ident_at r1) as [[r2 w]|] eqn:E2; [|congruence].
  destruct (blank_rest r2) as [r3|] eqn:E3; [|congruence].
  destruct (lit_rest IGNORECASE "ADD" r3) as [r4|] eqn:E4; [|congruence].
  intros H.
  apply lit_rest_sound in E0 as (kw & -> & Hkw).
  apply blank_rest_sound in E1 as (ws1 & -> & Hws1 & _).
  apply ident_at_sound in E2 as (-> & Hw & _).
  apply blank_rest_sound in E3 as (ws2 & -> & Hws2 & _).
  apply lit_rest_sound in E4 as (kw2 & -> & Hkw2).
  exists (kw ++ ws1 ++ w ++ ws2 ++ kw2), r4. split.
  - now rewrite <- !app_assoc.
  - split; [now exists kw, ws1, w, ws2, kw2|].
    apply semi_rest_In. now destruct (semi_rest r4).
Qed.

Lemma blank_head_not_word (ws rest : text) :
  blank ws -> ends_identifier (ws ++ rest).
Proof.
  intros [Hne Hall]. destruct ws as [|c ws]; [contradiction|].
  inversion Hall as [|? ? Hc _]; subst. cbn. now apply space_not_word.
Qed.

Lemma alter_add_complete (m r : text) :
  alter_add_head m -> In ";"%char r ->
  match_here IGNORECASE re_alter_add (m ++ r) <> None.
Proof.
  intros (kw & ws1 & w & ws2 & kw2 & -> & Hkw & Hws1 & Hw & Hws2 & Hkw2) Hr.
  rewrite match_here_alter_add. unfold alter_add_at.
  rewrite <- !app_assoc.
  rewrite (lit_rest_complete _ kw _ Hkw).
  rewrite blank_rest_complete; [|exact Hws1|now apply identifier_head_not_space].
  rewrite ident_at_complete; [|exact Hw|now apply blank_head_not_word].
  rewrite blank_rest_complete;
    [|exact Hws2|now apply (keyword_head_not_space kw2 _ _ _ Hkw2)].
  rewrite (lit_rest_complete _ kw2 _ Hkw2).
  apply semi_rest_In in Hr. now destruct (semi_rest r).
Qed.

Lemma alter_add_chars (m : text) :
  alter_add_head m ->
  exists c m', m = c :: m' /\ Chars.is_space c = false /\ Forall plain m.
Proof.
  intros (kw & ws1 & w & ws2 & kw2 & -> & Hkw & Hws1 & Hw & Hws2 & Hkw2).
  pose proof (keyword_head_not_space kw _ (ws1 ++ w ++ ws2 ++ kw2) _ Hkw eq_refl) as Hh.
  assert (Hall : Forall plain (kw ++ ws1 ++ w ++ ws2 ++ kw2)).
  { repeat apply Forall_app_2.
    - now apply (keyword_plain _ _ Hkw).
    - eapply Forall_impl; [apply Hws1|]. intros c. apply space_plain.
    - eapply Forall_impl; [apply Hw|]. intros c. apply word_plain.
    - eapply Forall_impl; [apply Hws2|]. intros c. apply space_plain.
    - now apply (keyword_plain _ _ Hkw2). }
  destruct (kw ++ ws1 ++ w ++ ws2 ++ kw2) as [|c m'] eqn:E.
  - destruct kw; [discriminate Hkw | discriminate E].
  - exists c, m'. auto.
Qed.

(** ** Lines *)

Lemma concat_readlines (s : text) : concat (Py.readlines s) = s.
Proof.
  induction s as [|c s IH]; cbn [Py.readlines]; [reflexivity|].
  destruct (Chars.eqb c "010").
  - cbn [concat app]. now rewrite IH.
  - destruct (Py.readlines s) as [|l ls]; cbn [concat app] in *.
    + now rewrite <- IH.
    + now rewrite <- IH.
Qed.

Lemma unmatched_sub (r : regex) (repl s : text) :
  unmatched r s = true -> sub IGNORECASE r repl s = s.
Proof.
  unfold unmatched. intros H. apply sub_unmatched.
  now destruct (search IGNORECASE r s).
Qed.

Lemma clean_line_settled (line : text) :
  line_settled line = true -> clean_line line = Some line.
Proof.
  unfold line_settled, clean_line. intros H.
  repeat (apply andb_true_iff in H as [H ?]).
  destruct (re_match IGNORECASE re_database_or_use line); [discriminate|].
  rewrite (unmatched_sub re_enum _ line) by assumption.
  rewrite (unmatched_sub re_auto_increment _ line) by assumption.
  rewrite (unmatched_sub re_int_autoincrement _ line) by assumption.
  now rewrite (unmatched_sub re_unique _ line) by assumption.
Qed.

Lemma clean_lines_settled (lines : list text) :
  forallb line_settled lines = true -> omap clean_line lines = lines.
Proof.
  induction lines as [|l ls IH]; cbn [forallb]; [reflexivity|].
  intros H. apply andb_true_iff in H as [Hl Hls].
  change (omap clean_line (l :: ls))
    with (match clean_line l with
          | Some y => y :: omap clean_line ls
          | None => omap clean_line ls
          end).
  rewrite (clean_line_settled l Hl). now rewrite IH.
Qed.

(** A text to which no rule applies is left as it is. *)
Lemma sanitize_settled (y : text) : settled y = true -> sanitize y = y.
Proof.
  unfold settled, sanitize. intros H.
  repeat (apply andb_true_iff in H as [H ?]).
  unfold clean_lines. rewrite clean_lines_settled by assumption.
  rewrite concat_readlines.
  unfold drop_alter_add, drop_create_index, drop_constraints.
  rewrite (unmatched_sub re_alter_add _ y) by assumption.
  rewrite (unmatched_sub re_create_index _ y) by assumption.
  rewrite (unmatched_sub re_unique_key _ y) by assumption.
  rewrite (unmatched_sub re_key _ y) by assumption.
  now rewrite (unmatched_sub re_constraint _ y) by assumption.
Qed.

(** ** Removal of statements that begin their statement *)

Lemma at_statement_heads_after (r : regex) (body rest : text) :
  forall b : bool,
    at_statement_heads r b (body ++ ";"%char :: rest) = true ->
    at_statement_heads r true rest = true.
Proof.
  induction body as [|c body IH]; intros b H; cbn [app at_statement_heads] in H;
    apply andb_true_iff in H as [_ H].
  - exact H.
  - now apply IH in H.
Qed.

Lemma sub_delete_nil (r : regex) : sub IGNORECASE r "" [] = [].
Proof. unfold sub. cbn. now destruct (match_here IGNORECASE r []). Qed.

Section Cuts.
Variable r : regex.
Hypothesis r_semicolon :
  forall s rest g,
    match_here IGNORECASE r s = Some (rest, g) ->
    exists body, s = body ++ ";"%char :: rest.

Lemma sub_cuts_bounded (n : nat) :
  forall (t : text) (b : bool),
    length t <= n ->
    at_statement_heads r b t = true ->
    cuts (fun s => match_here IGNORECASE r s = None) b t (sub IGNORECASE r "" t).
Proof using r_semicolon.
  induction n as [|n IH]; intros t b Hlen Hheads.
  - destruct t; [|cbn in Hlen; lia]. rewrite sub_delete_nil. constructor.
  - destruct t as [|c t]; [rewrite sub_delete_nil; constructor|].
    pose proof Hheads as Hall.
    cbn [at_statement_heads] in Hheads. apply andb_true_iff in Hheads as [Hb Hrest].
    destruct (match_here IGNORECASE r (c :: t)) as [[rest g]|] eqn:E.
    + destruct (r_semicolon _ _ _ E) as [body Hsplit].
      rewrite Hsplit in E, Hall, Hlen |- *.
      change (body ++ ";"%char :: rest) with (body ++ [";"%char] ++ rest) in E |- *.
      rewrite app_assoc in E |- *.
      rewrite (sub_replace IGNORECASE r "" _ rest g) by (try exact E; now destruct body).
      rewrite <- app_assoc. cbn [app].
      apply cuts_drop; [exact Hb|].
      apply IH.
      * rewrite length_app in Hlen. cbn in Hlen. lia.
      * now apply (at_statement_heads_after r body rest b).
    + rewrite sub_keep by exact E. apply cuts_keep; [exact E|].
      apply IH; [cbn in Hlen; lia | exact Hrest].
Qed.

Lemma sub_cuts (t : text) :
  at_statement_heads r true t = true ->
  cuts (fun s => match_here IGNORECASE r s = None) true t (sub IGNORECASE r "" t).
Proof using r_semicolon. apply (sub_cuts_bounded (length t)). lia. Qed.

End Cuts.

Lemma cuts_mem (K : text -> Prop) (b : bool) (t o : text) :
  cuts K b t o -> forall x, In x o -> In x t.
Proof.
  induction 1 as [b|b c t o _ _ IH|b body t o _ _ IH]; intros x Hx.
  - exact Hx.
  - destruct Hx as [->|Hx]; [now left | right; now apply IH].
  - apply in_or_app. right. right. now apply IH.
Qed.

Lemma next_blank_plain (b : bool) (c : ascii) :
  Chars.is_space c = false -> plain c -> next_blank b c = false.
Proof.
  intros Hs [Hsemi _]. unfold next_blank. rewrite Hsemi, Hs. apply andb_false_r.
Qed.

Lemma cuts_prefix (K : text -> Prop) (m : text) :
  Forall plain m ->
  forall t o r,
    cuts K false t o -> o = m ++ r ->
    exists r', t = m ++ r' /\ (In ";"%char r -> In ";"%char r').
Proof.
  induction 1 as [|c m Hc Hm IH]; intros t o r Hcuts Ho.
  - exists t. split; [reflexivity|]. subst o. apply (cuts_mem _ _ _ _ Hcuts).
  - cbn [app] in Ho. subst o.
    remember (c :: m ++ r) as o eqn:Ho. remember false as b0 eqn:Hb0.
    destruct Hcuts as [b|b c' t o HK Hrest|b body t o Hb Hrest].
    + discriminate.
    + injection Ho as -> ->. subst b.
      assert (Hnb : next_blank false c = false).
      { unfold next_blank. destruct Hc as [-> _]. reflexivity. }
      rewrite Hnb in Hrest.
      destruct (IH _ _ _ Hrest eq_refl) as (r' & -> & Hr').
      now exists r'.
    + congruence.
Qed.

Lemma trims_mem (t o : text) : trims t o -> forall x, In x o -> In x t.
Proof.
  induction 1 as [|c t o _ IH|m t o _ _ IH]; intros x Hx.
  - exact Hx.
  - destruct Hx as [->|Hx]; [now left | right; now apply IH].
  - apply in_or_app. right. now apply IH.
Qed.

Lemma trims_stops (t o : text) : trims t o -> stops t -> stops o.
Proof.
  induction 1 as [|c t o _ _|m t o Hstop _ IH]; intros Ht.
  - exact I.
  - exact Ht.
  - now apply IH.
Qed.

Lemma trims_prefix (m : text) :
  Forall plain m ->
  forall t o r,
    trims t o -> o = m ++ r ->
    exists r', t = m ++ r' /\ (In ";"%char r -> In ";"%char r').
Proof.
  induction 1 as [|c m Hc Hm IH]; intros t o r Htrims Ho.
  - exists t. split; [reflexivity|]. subst o. apply (trims_mem _ _ Htrims).
  - cbn [app] in Ho. subst o.
    remember (c :: m ++ r) as o eqn:Ho.
    destruct Htrims as [|c' t o Hrest|m0 t o Hstop Hrest].
    + discriminate.
    + injection Ho as -> ->.
      destruct (IH _ _ _ Hrest eq_refl) as (r' & -> & Hr'). now exists r'.
    + exfalso. pose proof (trims_stops _ _ Hrest Hstop) as Hs.
      subst o. cbn in Hs. destruct Hc as [_ Hc]. congruence.
Qed.

Section Statements.
Variable q : regex.
Variable opening : text -> Prop.
Hypothesis opening_sound :
  forall s, match_here IGNORECASE q s <> None ->
            exists m r, s = m ++ r /\ opening m /\ In ";"%char r.
Hypothesis opening_complete :
  forall m r, opening m -> In ";"%char r -> match_here IGNORECASE q (m ++ r) <> None.
Hypothesis opening_chars :
  forall m, opening m ->
            exists c m', m = c :: m' /\ Chars.is_space c = false /\ Forall plain m.

(** A match of [q] in the text after the cuts stood in the text before
    them, at a character that was kept. *)
Lemma cuts_transfer (K : text -> Prop) (b : bool) (t o : text) :
  cuts K b t o ->
  forall o1 o2,
    o = o1 ++ o2 -> match_here IGNORECASE q o2 <> None ->
    exists t1 t2, t = t1 ++ t2 /\ K t2 /\ match_here IGNORECASE q t2 <> None.
Proof using opening_sound opening_complete opening_chars.
  induction 1 as [b|b c t o HK Hrest IH|b body t o Hb Hrest IH]; intros o1 o2 Ho Hq.
  - destruct o1, o2; try discriminate.
    destruct (opening_sound _ Hq) as (m & r & Hs & Hm & _).
    destruct (opening_chars _ Hm) as (c & m' & -> & _). discriminate.
  - destruct o1 as [|c1 o1].
    + cbn [app] in Ho. subst o2.
      destruct (opening_sound _ Hq) as (m & r & Hs & Hm & Hr).
      destruct (opening_chars _ Hm) as (c0 & m' & -> & Hspace & Hplain).
      cbn [app] in Hs. injection Hs as <- ->.
      inversion Hplain as [|? ? Hc Hm']; subst.
      rewrite (next_blank_plain b c Hspace Hc) in Hrest.
      destruct (cuts_prefix K m' Hm' _ _ _ Hrest eq_refl) as (r' & -> & Hr').
      exists [], (c :: m' ++ r'). split; [reflexivity|]. split; [exact HK|].
      apply (opening_complete (c :: m') r' Hm). auto.
    + cbn [app] in Ho. injection Ho as <- ->.
      destruct (IH o1 o2 eq_refl Hq) as (t1 & t2 & -> & H1 & H2).
      now exists (c :: t1), t2.
  - destruct (IH o1 o2 Ho Hq) as (t1 & t2 & -> & H1 & H2).
    exists (body ++ ";"%char :: t1), t2. split; [|now split].
    now rewrite <- app_assoc.
Qed.

Lemma trims_transfer (t o : text) :
  trims t o ->
  forall o1 o2,
    o = o1 ++ o2 -> match_here IGNORECASE q o2 <> None ->
    exists t1 t2, t = t1 ++ t2 /\ match_here IGNORECASE q t2 <> None.
Proof using opening_sound opening_complete opening_chars.
  induction 1 as [|c t o Hrest IH|m0 t o Hstop Hrest IH]; intros o1 o2 Ho Hq.
  - destruct o1, o2; try discriminate.
    destruct (opening_sound _ Hq) as (m & r & Hs & Hm & _).
    destruct (opening_chars _ Hm) as (c & m' & -> & _). discriminate.
  - destruct o1 as [|c1 o1].
    + cbn [app] in Ho. subst o2.
      destruct (opening_sound _ Hq) as (m & r & Hs & Hm & Hr).
      destruct (opening_chars _ Hm) as (c0 & m' & -> & Hspace & Hplain).
      cbn [app] in Hs. injection Hs as <- ->.
      inversion Hplain as [|? ? Hc Hm']; subst.
      destruct (trims_prefix m' Hm' _ _ _ Hrest eq_refl) as (r' & -> & Hr').
      exists [], (c :: m' ++ r'). split; [reflexivity|].
      apply (opening_complete (c :: m') r' Hm). auto.
    + cbn [app] in Ho. injection Ho as <- ->.
      destruct (IH o1 o2 eq_refl Hq) as (t1 & t2 & -> & H2).
      now exists (c :: t1), t2.
  - destruct (IH o1 o2 Ho Hq) as (t1 & t2 & -> & H2).
    exists (m0 ++ t1), t2. split; [now rewrite <- app_assoc | exact H2].
Qed.

(** The pass that removes the matches of [q] leaves none, when each
    begins its statement. *)
Lemma removed_leaves_none (t : text) :
  (forall s rest g, match_here IGNORECASE q s = Some (rest, g) ->
                    exists body, s = body ++ ";"%char :: rest) ->
  at_statement_heads q true t = true ->
  search IGNORECASE q (sub IGNORECASE q "" t) = None.
Proof using opening_sound opening_complete opening_chars.
  intros Hsemi Hheads. apply search_None_intro. intros pre o2 Ho.
  destruct (match_here IGNORECASE q o2) eqn:E; [|reflexivity]. exfalso.
  destruct (cuts_transfer _ _ _ _ (sub_cuts q Hsemi t Hheads) pre o2 Ho)
    as (t1 & t2 & _ & HK & Hq); congruence.
Qed.

(** A pass that removes statements beginning their statement brings no
    match of [q] about. *)
Lemma cuts_bring_none (r : regex) (t : text) :
  (forall s rest g, match_here IGNORECASE r s = Some (rest, g) ->
                    exists body, s = body ++ ";"%char :: rest) ->
  at_statement_heads r true t = true ->
  search IGNORECASE q t = None ->
  search IGNORECASE q (sub IGNORECASE r "" t) = None.
Proof using opening_sound opening_complete opening_chars.
  intros Hsemi Hheads Hnone. apply search_None_intro. intros pre o2 Ho.
  destruct (match_here IGNORECASE q o2) eqn:E; [|reflexivity]. exfalso.
  destruct (cuts_transfer _ _ _ _ (sub_cuts r Hsemi t Hheads) pre o2 Ho)
    as (t1 & t2 & -> & _ & Hq); [congruence|].
  now apply search_None_suffix in Hnone.
Qed.

Lemma trims_bring_none (t o : text) :
  trims t o ->
  search IGNORECASE q t = None ->
  search IGNORECASE q o = None.
Proof using opening_sound opening_complete opening_chars.
  intros Htrims Hnone. apply search_None_intro. intros pre o2 Ho.
  destruct (match_here IGNORECASE q o2) eqn:E; [|reflexivity]. exfalso.
  destruct (trims_transfer _ _ Htrims pre o2 Ho) as (t1 & t2 & -> & Hq); [congruence|].
  now apply search_None_suffix in Hnone.
Qed.

End Statements.

(** ** The passes of the translation *)

Lemma create_index_semicolon (s rest : text) (g : caps) :
  match_here IGNORECASE re_create_index s = Some (rest, g) ->
  exists body, s = body ++ ";"%char :: rest.
Proof.
  rewrite match_here_create_index. unfold create_index_at.
  destruct (lit_rest IGNORECASE "CREATE INDEX" s) as [r0|] eqn:E0; [|discriminate].
  destruct (semi_rest r0) as [r'|] eqn:E1; [|discriminate].
  intros [= <- <-].
  apply lit_rest_sound in E0 as (m & -> & _).
  apply semi_rest_split in E1 as (body & ->).
  exists (m ++ body). now rewrite <- app_assoc.
Qed.

Lemma alter_add_semicolon (s rest : text) (g : caps) :
  match_here IGNORECASE re_alter_add s = Some (rest, g) ->
  exists body, s = body ++ ";"%char :: rest.
Proof.
  rewrite match_here_alter_add. unfold alter_add_at.
  destruct (lit_rest IGNORECASE "ALTER TABLE" s) as [r0|] eqn:E0; [|discriminate].
  destruct (blank_rest r0) as [r1|] eqn:E1; [|discriminate].
  destruct (ident_at r1) as [[r2 w]|] eqn:E2; [|discriminate].
  destruct (blank_rest r2) as [r3|] eqn:E3; [|discriminate].
  destruct (lit_rest IGNORECASE "ADD" r3) as [r4|] eqn:E4; [|discriminate].
  destruct (semi_rest r4) as [r'|] eqn:E5; [|discriminate].
  intros [= <- <-].
  apply lit_rest_sound in E0 as (kw & -> & _).
  apply blank_rest_sound in E1 as (ws1 & -> & _).
  apply ident_at_sound in E2 as (-> & _).
  apply blank_rest_sound in E3 as (ws2 & -> & _).
  apply lit_rest_sound in E4 as (kw2 & -> & _).
  apply semi_rest_split in E5 as (body & ->).
  exists (kw ++ ws1 ++ w ++ ws2 ++ kw2 ++ body).
  now rewrite <- !app_assoc.
Qed.

(** The last item of a sequence is reached on a suffix of the text. *)
Lemma rmatch_seqs_tail (fl : flags) (tail : regex) (rs : list regex) :
  forall (s : text) (g : caps) (k : cont) (m : text * caps),
    rmatch fl (seqs (rs ++ [tail])) s g k = Some m ->
    exists pre s' g', s = pre ++ s' /\ rmatch fl tail s' g' k = Some m.
Proof.
  induction rs as [|a rs IH]; intros s g k m H.
  - exists [], s, g. split; [reflexivity | exact H].
  - cbn [app seqs fold_right rmatch] in H.
    apply rmatch_suffix in H as (p1 & s1 & g1 & -> & H).
    apply IH in H as (p2 & s2 & g2 & -> & H).
    exists (p1 ++ p2), s2, g2. split; [now rewrite app_assoc | exact H].
Qed.

(** A pattern that ends with [[^,)]*] stops at a stop character or at the
    end of the text. *)
Lemma constraint_tail_stops (rs : list regex) (s rest : text) (g : caps) :
  match_here IGNORECASE
    (seqs (rs ++ [Star true (One (NoneOf [","%char; ")"%char]))])) s
  = Some (rest, g) ->
  stops rest.
Proof.
  unfold match_here. intros H.
  apply rmatch_seqs_tail in H as (pre & s' & g' & -> & H).
  rewrite rmatch_star_one in H.
  rewrite (star_one_first _ _ s' g' _
             (skip_while (atom_ok IGNORECASE (NoneOf [","%char; ")"%char])) s', g'))
    in H by reflexivity.
  injection H as <- <-. unfold stops.
  destruct (skip_while _ s') as [|c r] eqn:E; [exact I|].
  apply skip_while_head in E. unfold atom_ok in E. cbn in E.
  apply negb_false_iff in E. unfold stop_char. now rewrite orb_false_r in E.
Qed.

Lemma sub_trims_bounded (r : regex) (n : nat) :
  (forall s rest g, match_here IGNORECASE r s = Some (rest, g) -> stops rest) ->
  forall t : text, length t <= n -> trims t (sub IGNORECASE r "" t).
Proof.
  intros Hr. induction n as [|n IH]; intros t Hlen.
  - destruct t; [|cbn in Hlen; lia]. rewrite sub_delete_nil. constructor.
  - destruct t as [|c t]; [rewrite sub_delete_nil; constructor|].
    destruct (match_here IGNORECASE r (c :: t)) as [[rest g]|] eqn:E.
    + pose proof (Hr _ _ _ E) as Hstop.
      destruct (match_here_suffix _ _ _ _ _ E) as [m Hsplit].
      destruct m as [|c0 m].
      * cbn [app] in Hsplit. subst rest.
        unfold sub. cbn [sub_from]. rewrite E, Nat.sub_diag. cbn [app].
        apply trims_keep. apply IH. cbn in Hlen. lia.
      * rewrite Hsplit in E, Hlen |- *.
        rewrite (sub_replace IGNORECASE r "" (c0 :: m) rest g) by (discriminate || exact E).
        cbn [app]. apply (trims_drop (c0 :: m) rest); [exact Hstop|].
        apply IH. rewrite length_app in Hlen. cbn in Hlen. lia.
    + rewrite sub_keep by exact E. apply trims_keep. apply IH. cbn in Hlen. lia.
Qed.

Lemma drop_constraints_trims (t : text) :
  exists t1 t2,
    trims t t1 /\ trims t1 t2 /\ trims t2 (drop_constraints t).
Proof.
  unfold drop_constraints.
  exists (sub IGNORECASE re_unique_key "" t),
         (sub IGNORECASE re_key "" (sub IGNORECASE re_unique_key "" t)).
  repeat split.
  - apply (sub_trims_bounded _ (length t)); [|lia].
    intros s rest g.
    apply (constraint_tail_stops
             [Str ","; spaces0; Str "UNIQUE"; spaces1; Str "KEY"; spaces1]).
  - apply (sub_trims_bounded _ (length (sub IGNORECASE re_unique_key "" t))); [|lia].
    intros s rest g.
    apply (constraint_tail_stops [Str ","; spaces0; Str "KEY"; spaces1]).
  - apply (sub_trims_bounded _
             (length (sub IGNORECASE re_key "" (sub IGNORECASE re_unique_key "" t))));
      [|lia].
    intros s rest g.
    apply (constraint_tail_stops [Str ","; spaces0; Str "CONSTRAINT"]).
Qed.

(* ================================================================== *)
(** * Part IV: the properties of the design document                   *)
(* ================================================================== *)

(** ** Sample runs *)

Example infer_sample :
  infer_table_name_from_sql
    "create table if not exists users (id INT); CREATE TABLE orders (id INT);"
  = "users".
Proof. vm_compute. reflexivity. Qed.

Example infer_default_sample :
  infer_table_name_from_sql "INSERT INTO users VALUES (1);" = "uploaded_table".
Proof. vm_compute. reflexivity. Qed.

Example clean_response_sample :
  clean_response "```sql
SELECT name FROM users
```" = Ok "SELECT name FROM users;".
Proof. vm_compute. reflexivity. Qed.

Example sanitize_sample :
  sanitize "CREATE DATABASE shop;
USE shop;
CREATE TABLE t (id INT AUTO_INCREMENT PRIMARY KEY, kind ENUM('a','b'), email VARCHAR(50) UNIQUE);
ALTER TABLE t ADD COLUMN y INT;
CREATE INDEX idx ON t(y);
"
  = "CREATE TABLE t (id INTEGER PRIMARY KEY AUTOINCREMENT, kind TEXT, email VARCHAR(50));


".
Proof. vm_compute. reflexivity. Qed.

Example extract_sql_sample :
  FileExtraction.extract_sql
    "CREATE TABLE users (id INT, name TEXT);
INSERT INTO users VALUES (1, 'ann');
INSERT INTO users VALUES (2, 'bob');
INSERT INTO logs VALUES (1);" !! "users"
  = Some {| FileExtraction.entry_columns := Some ["id"; "name"];
            FileExtraction.create_statement := Some "CREATE TABLE users (...)";
            FileExtraction.insert_count := Some 2;
            FileExtraction.sample_inserts := Some "2 INSERT statements found" |}.
Proof. vm_compute. reflexivity. Qed.

(** ** Query generation *)

Section Heuristic.
Variable model : text -> outcome text.

Lemma contains_marks (cols : list text) :
  Py.contains "marks" (map Py.lower cols) = true <-> Exists matches_marks cols.
Proof.
  unfold Py.contains, matches_marks, text_eqb.
  induction cols as [|c cols IH]; cbn [map existsb].
  - split; [discriminate | inversion 1].
  - rewrite orb_true_iff, IH, Exists_cons, bool_decide_eq_true.
    split; (intros [H|H]; [left; congruence | now right]).
Qed.


End Heuristic.


(** When the model call raises, the row-count query is returned whatever
    the columns are. *)
Lemma model_failure_gives_row_count (model : text -> outcome text)
    (nl_query : text) (ctx : schema_context) (gemini_key : text) (e : text) :
  gemini_key <> [] ->
  model (prompt (get_table_name "users" ctx) (Py.join ", " (get_columns ctx)) nl_query)
  = Raised e ->
  generate_sql_with_gemini model nl_query ctx gemini_key
  = "SELECT COUNT(*) AS row_count FROM " ++ get_table_name "uploaded_table" ctx ++ ";".
Proof.
  intros Hk Hm. unfold generate_sql_with_gemini.
  destruct gemini_key; [contradiction|].
  cbn zeta. rewrite Hm. reflexivity.
Qed.

(** C2 (refuted by the code). With a credential and a failing model call,
    a context with a [marks] column still yields the row-count query: the
    exception handler does not consult the columns. *)
Theorem model_failure_ignores_marks :
  generate_sql_with_gemini (fun _ => Raised "quota exceeded") "average marks"
    {| columns := Some ["id"; "name"; "marks"]; table_name := Some "uploaded_table" |}
    "secret"
  = "SELECT COUNT(*) AS row_count FROM uploaded_table;"
  /\ Exists matches_marks ["id"; "name"; "marks"].
Proof.
  split.
  - reflexivity.
  - apply contains_marks. vm_compute. reflexivity.
Qed.

(** ** Execution of the generated query *)

Section Execution.
Context {conn scalar : Type}.
Variable e : App.env conn scalar.

(** C3. When the execution of the generated query raises, the handler
    answers with status 500 and a body made of the attempted query,
    unchanged, and of an error message that is not empty and ends with
    the engine's message; the body has no ["result"] field, so it is no
    success payload. *)
Theorem execution_failure_payload (nl_query schema_path : text)
    (c : conn) (ctx : schema_context) (msg : text) :
  nl_query <> [] ->
  App.path_exists e schema_path = true ->
  App.load_context e schema_path = Ok (Some (c, ctx)) ->
  App.read_sql_query e
    (generate_sql_with_gemini (App.model e) nl_query ctx (App.GEMINI_KEY e)) c
  = Raised msg ->
  let sql_query := generate_sql_with_gemini (App.model e) nl_query ctx (App.GEMINI_KEY e) in
  exists fields : list (text * App.json scalar),
    App.generate_sql e (Some nl_query) (Some schema_path) = (App.JObj fields, 500)
    /\ App.field "sql" fields = Some (App.JStr sql_query)
    /\ App.field "error" fields = Some (App.JStr ("SQL execution failed: " ++ msg))
    /\ "SQL execution failed: " ++ msg <> []
    /\ App.field "result" fields = None
    /\ forall rows : list (App.json scalar),
         App.JObj fields
         <> App.JObj [("sql", App.JStr sql_query); ("result", App.JArr rows)].
Proof.
  intros Hq Hex Hload Hrun sql_query.
  exists [("sql", App.JStr sql_query);
          ("error", App.JStr ("SQL execution failed: " ++ msg))].
  split; [|repeat split; try reflexivity; try discriminate].
  unfold App.generate_sql.
  destruct nl_query as [|a nl]; [contradiction|].
  destruct schema_path as [|b p]; [discriminate Hload|].
  rewrite Hex. cbn [negb]. rewrite Hload. cbn [bind try_except].
  unfold App.answer. fold sql_query. unfold sql_query at 1. rewrite Hrun.
  reflexivity.
Qed.

End Execution.

Lemma execution_failure_payload_witness :
  exists fields : list (text * App.json nat),
    App.generate_sql failing_env (Some "how many rows?") (Some "data.csv")
    = (App.JObj fields, 500)
    /\ App.field "sql" fields
       = Some (App.JStr "SELECT COUNT(*) AS row_count FROM uploaded_table;")
    /\ App.field "error" fields
       = Some (App.JStr "SQL execution failed: no such table: uploaded_table").
Proof.
  destruct (execution_failure_payload failing_env "how many rows?" "data.csv" tt
              {| columns := Some ["id"; "name"]; table_name := Some "uploaded_table" |}
              "no such table: uploaded_table")
    as (fields & H1 & H2 & H3 & _); try reflexivity; try discriminate.
  exists fields. repeat split; assumption.
Defined.

(** ** Schema extraction from a tabular file *)

Section CsvSchema.
Context {scalar : Type}.
Variable read_csv : text -> outcome (FileExtraction.DataFrame scalar).


End CsvSchema.


(** ** Loading the sanitized statements *)

Section Load.
Context {conn : Type}.
Variable execute : conn -> text -> conn * outcome unit.
Variable commit : conn -> conn * outcome unit.
Variable read_file : text -> outcome text.

Lemma for_each_attempts (stmts : list text) (w : world conn) :
  exists w' : world conn,
    for_each stmts
      (fun stmt =>
         let stmt := Py.strip stmt in
         if runnable stmt
         then try_ (then_ (conn_execute execute stmt) (fun _ => conn_commit commit))
                (ret tt)
         else ret tt) w
    = (Ok tt, w')
    /\ attempted w' = attempted w ++ List.filter runnable (map Py.strip stmts).
Proof.
  revert w. induction stmts as [|stmt stmts IH]; intros w.
  - exists w. cbn. rewrite app_nil_r. split; reflexivity.
  - cbn [for_each map List.filter]. unfold then_ at 1. cbn zeta.
    destruct (runnable (Py.strip stmt)) eqn:Hrun.
    + unfold try_, then_ at 1, conn_execute, conn_commit, ret.
      destruct (execute (db w) (Py.strip stmt)) as [c1 [[]|e1]] eqn:He; cbn.
      * destruct (commit c1) as [c2 [[]|e2]] eqn:Hc; cbn;
          match goal with |- context [for_each stmts _ ?w1] =>
            destruct (IH w1) as (w' & Hw & Ha) end;
          exists w'; (split; [exact Hw|]); rewrite Ha; cbn;
          rewrite <- app_assoc; reflexivity.
      * match goal with |- context [for_each stmts _ ?w1] =>
          destruct (IH w1) as (w' & Hw & Ha) end.
        exists w'. split; [exact Hw|]. rewrite Ha. cbn.
        rewrite <- app_assoc. reflexivity.
    + unfold ret at 1. destruct (IH w) as (w' & Hw & Ha).
      exists w'. split; [exact Hw|exact Ha].
Qed.


End Load.


(** ** Table-name inference *)


Lemma first_statement_by_evaluation (pre s : text) :
  no_statement_in pre s = true -> first_statement pre s.
Proof.
  induction pre as [|c pre IH]; intros H p1 p2 t' Hp Hne Hst.
  - destruct p1, p2; try discriminate. now apply Hne.
  - cbn [no_statement_in] in H.
    destruct (create_table_at ((c :: pre) ++ s)) eqn:E; [discriminate|].
    destruct p1 as [|d p1].
    + cbn [app] in Hp. subst p2.
      apply create_table_at_complete in Hst as [rest Hst]. congruence.
    + injection Hp as -> ->. now apply (IH H p1 p2 t').
Qed.


Lemma no_keyword_no_statement (sql_text : text) :
  occurs_ci "CREATE TABLE" sql_text = false -> no_create_table sql_text.
Proof.
  intros Hno p u t -> Hst.
  apply create_table_at_complete in Hst as [rest Hst].
  unfold create_table_at in Hst.
  destruct (lit_rest IGNORECASE "CREATE TABLE" u) as [r|] eqn:E; [|discriminate].
  apply lit_rest_startswith in E.
  apply occurs_ci_suffix, occurs_ci_head in Hno. congruence.
Qed.

(** C10. The inferred table name is never empty, and on a text in which
    no CREATE TABLE statement starts it is the default name
    [uploaded_table]. *)
Theorem infer_default_without_create_table (sql_text : text) :
  infer_table_name_from_sql sql_text <> []
  /\ (no_create_table sql_text ->
      infer_table_name_from_sql sql_text = "uploaded_table").
Proof.
  unfold infer_table_name_from_sql. split.
  - destruct (search IGNORECASE re_create_table sql_text) as [[rest g]|] eqn:E;
      [|discriminate].
    apply search_Some in E as (pre & t & -> & E).
    rewrite match_here_create_table in E.
    destruct (create_table_at t) as [[rest' name]|] eqn:Et; [|discriminate].
    injection E as <- <-.
    apply create_table_at_sound in Et. cbn.
    destruct Et as [? ? ? ? _ _ [Hne _] _ _|? ? ? ? ? ? _ _ _ _ [Hne _] _];
      exact Hne.
  - intros Hno.
    rewrite (search_None_intro IGNORECASE re_create_table sql_text); [reflexivity|].
    intros pre t Hsplit. rewrite match_here_create_table.
    destruct (create_table_at t) as [[rest name]|] eqn:E; [|reflexivity].
    exfalso. apply create_table_at_sound in E. exact (Hno pre t name Hsplit E).
Qed.

Lemma infer_default_without_create_table_witness :
  infer_table_name_from_sql "INSERT INTO users VALUES (1, 'ann');" = "uploaded_table".
Proof.
  apply (proj2 (infer_default_without_create_table
                  "INSERT INTO users VALUES (1, 'ann');")).
  apply no_keyword_no_statement. reflexivity.
Defined.

(** ** Schema extraction from DDL text *)

Section ExtractSql.
Import FileExtraction.
Variable sql_content : text.

Lemma record_created_from_create_table (ms : list caps) :
  forall tables : gmap text table_entry,
    (forall m, In m ms -> In m (findall IGNORECASE_DOTALL create_table_pattern sql_content)) ->
    from_create_table sql_content tables ->
    from_create_table sql_content (foldl record_created tables ms).
Proof.
  induction ms as [|m ms IH]; intros tables Hms Hinv; cbn [foldl]; [exact Hinv|].
  apply IH; [intros; apply Hms; now right|].
  intros name e cols Hlook Hcols. unfold record_created in Hlook.
  destruct (decide (group_text 1 m = name)) as [Heq|Hne].
  - rewrite Heq, lookup_insert_eq in Hlook. injection Hlook as <-.
    cbn in Hcols. injection Hcols as <-.
    exists m. split; [apply Hms; now left|]. split; [exact Heq|reflexivity].
  - rewrite lookup_insert_ne in Hlook by exact Hne. now apply (Hinv name e).
Qed.

Lemma record_inserts_from_create_table (inserts names : list text) :
  forall tables : gmap text table_entry,
    from_create_table sql_content tables ->
    from_create_table sql_content (foldl (record_inserts inserts) tables names).
Proof.
  induction names as [|n names IH]; intros tables Hinv; cbn [foldl]; [exact Hinv|].
  apply IH. intros name e cols Hlook Hcols. unfold record_inserts in Hlook.
  destruct (decide (n = name)) as [->|Hne].
  - rewrite lookup_insert_eq in Hlook. injection Hlook as <-. cbn in Hcols.
    destruct (tables !! name) as [e0|] eqn:E0; [|discriminate].
    now apply (Hinv name e0).
  - rewrite lookup_insert_ne in Hlook by exact Hne. now apply (Hinv name e).
Qed.


End ExtractSql.



(** ** Dialect translation *)







(* ================================================================== *)
(** * Part V: further properties of the code                           *)
(* ================================================================== *)

(** ** Python string methods *)

Lemma startswith_spec (p s : text) :
  Py.startswith p s = true <-> exists rest, s = p ++ rest.
Proof.
  revert s. induction p as [|a p IH]; intros s; cbn [Py.startswith].
  - split; [now exists s | reflexivity].
  - destruct s as [|c s].
    + split; [discriminate | intros [rest H]; discriminate].
    + rewrite andb_true_iff, chars_eqb_eq, IH. split.
      * intros [-> [rest ->]]. now exists rest.
      * intros [rest [= -> ->]]. split; [reflexivity | now exists rest].
Qed.

Lemma endswith_spec (p s : text) :
  Py.endswith p s = true <-> exists pre, s = pre ++ p.
Proof.
  unfold Py.endswith. rewrite startswith_spec. split.
  - intros [rest H]. exists (rev rest).
    rewrite <- (rev_involutive s), H, rev_app_distr. now rewrite rev_involutive.
  - intros [pre ->]. exists (rev pre). now rewrite rev_app_distr.
Qed.

Lemma endswith_app (p s : text) : Py.endswith p (s ++ p) = true.
Proof. apply endswith_spec. now exists s. Qed.

Lemma lstrip_skip_while (s : text) : Py.lstrip s = skip_while Chars.is_space s.
Proof.
  induction s as [|c s IH]; cbn; [reflexivity|].
  destruct (Chars.is_space c); [exact IH | reflexivity].
Qed.

Lemma lstrip_fixed (s : text) :
  match s with c :: _ => Chars.is_space c = false | [] => True end ->
  Py.lstrip s = s.
Proof. rewrite lstrip_skip_while. apply skip_while_stop. Qed.

Lemma lstrip_head (s : text) :
  match Py.lstrip s with c :: _ => Chars.is_space c = false | [] => True end.
Proof.
  rewrite lstrip_skip_while.
  destruct (skip_while Chars.is_space s) eqn:E; [exact I|].
  now apply skip_while_head in E.
Qed.

Lemma lstrip_idempotent (s : text) : Py.lstrip (Py.lstrip s) = Py.lstrip s.
Proof. apply lstrip_fixed, lstrip_head. Qed.

Lemma rstrip_idempotent (s : text) : Py.rstrip (Py.rstrip s) = Py.rstrip s.
Proof. unfold Py.rstrip. now rewrite rev_involutive, lstrip_idempotent. Qed.

Lemma lstrip_snoc (l : text) (c : ascii) :
  Chars.is_space c = false -> exists z, Py.lstrip (l ++ [c]) = z ++ [c].
Proof.
  intros Hc. induction l as [|d l IH]; cbn [app Py.lstrip].
  - rewrite Hc. now exists [].
  - destruct (Chars.is_space d); [exact IH | now exists (d :: l)].
Qed.

(** Stripping on the right keeps a first character that is no white
    space. *)
Lemma rstrip_keeps_head (c : ascii) (s : text) :
  Chars.is_space c = false -> exists z, Py.rstrip (c :: s) = c :: z.
Proof.
  intros Hc. unfold Py.rstrip. cbn [rev].
  destruct (lstrip_snoc (rev s) c Hc) as [z ->].
  exists (rev z). now rewrite rev_app_distr.
Qed.

Lemma strip_idempotent (s : text) : Py.strip (Py.strip s) = Py.strip s.
Proof.
  unfold Py.strip.
  assert (H : Py.lstrip (Py.rstrip (Py.lstrip s)) = Py.rstrip (Py.lstrip s)).
  { pose proof (lstrip_head s) as Hh.
    destruct (Py.lstrip s) as [|c x]; [reflexivity|].
    destruct (rstrip_keeps_head c x Hh) as [z ->]. now apply lstrip_fixed. }
  rewrite H. apply rstrip_idempotent.
Qed.

(** A first character that is no white space survives [strip]. *)
Lemma strip_keeps_prefix (c : ascii) (s : text) :
  Chars.is_space c = false -> exists z, Py.strip (c :: s) = c :: z.
Proof.
  intros Hc. unfold Py.strip. rewrite lstrip_fixed by exact Hc.
  now apply rstrip_keeps_head.
Qed.

Lemma split_from_nonempty (sep : text) (n : nat) (s : text) :
  Py.split_from sep n s <> [].
Proof.
  revert n. induction s as [|c s IH]; intros n; cbn [Py.split_from]; [discriminate|].
  destruct n; [|apply IH].
  destruct (Py.startswith sep (c :: s)); [discriminate|].
  destruct (Py.split_from sep 0 s); discriminate.
Qed.

(** ** The answer of the model *)

Lemma terminated_ends (q : text) : Py.endswith ";" (terminated q) = true.
Proof.
  unfold terminated. destruct (Py.endswith ";" q) eqn:E; [exact E|apply endswith_app].
Qed.

Lemma clean_response_ok (response : text) :
  exists q, clean_response response = Ok (terminated (Py.strip q)).
Proof.
  unfold clean_response.
  destruct (Py.startswith "```" (Py.strip response)) eqn:E.
  - unfold Py.split.
    destruct (Py.strip response) as [|c s] eqn:Es; [discriminate|].
    cbn [Py.split_from]. rewrite E.
    pose proof (split_from_nonempty "```" (length ("```" : text) - 1) s) as Hne.
    destruct (Py.split_from "```" (length ("```" : text) - 1) s) as [|piece ps];
      [contradiction|].
    cbn [bind]. eexists. reflexivity.
  - cbn [bind]. eexists. reflexivity.
Qed.

Lemma split_piece (piece tail : text) :
  Forall (fun c => c <> "`"%char) piece ->
  Py.split_from "```" 0 (piece ++ "```" ++ tail) = piece :: Py.split_from "```" 0 tail.
Proof.
  induction 1 as [|c piece Hc _ IH].
  - reflexivity.
  - change ((c :: piece) ++ "```" ++ tail) with (c :: (piece ++ "```" ++ tail)).
    set (rest := piece ++ "```" ++ tail) in *.
    cbn [Py.split_from].
    replace (Py.startswith "```" (c :: rest)) with false.
    + now rewrite IH.
    + symmetry. cbn [Py.startswith]. apply andb_false_iff. left.
      apply not_true_is_false. intros E. apply chars_eqb_eq in E. congruence.
Qed.

Lemma split_fence (piece tail : text) :
  Forall (fun c => c <> "`"%char) piece ->
  Py.split "```" ("```" ++ piece ++ "```" ++ tail)
  = [] :: piece :: Py.split "```" tail.
Proof.
  intros H. unfold Py.split. cbn [app Py.split_from Py.startswith].
  change (Chars.eqb "`" "`") with true. cbn [andb length Nat.sub].
  f_equal. apply (split_piece piece tail H).
Qed.

Section ModelAnswer.
Variable model : text -> outcome text.
Variables (nl_query : text) (ctx : schema_context) (gemini_key : text).

(** X1. Every generated query ends with a semicolon: on the path without
    credential, on the path of the model's answer and on the path of the
    failed call. *)
Theorem generated_query_terminated :
  Py.endswith ";" (generate_sql_with_gemini model nl_query ctx gemini_key) = true.
Proof using Type.
  unfold generate_sql_with_gemini. destruct gemini_key as [|k key].
  - destruct (Py.contains "marks" (map Py.lower (get_columns ctx)));
      rewrite app_assoc; apply endswith_app.
  - cbn zeta.
    destruct (model _) as [r|msg]; cbn [bind try_except].
    + destruct (clean_response_ok r) as [q ->]. cbn [try_except].
      apply terminated_ends.
    + rewrite app_assoc. apply endswith_app.
Qed.

(** X2. With a credential, an answer of the model that does not open
    with a code fence is returned stripped of the surrounding white space
    and terminated; the heuristic is not consulted. *)
Theorem plain_answer_returned (response : text) :
  gemini_key <> [] ->
  model (prompt (get_table_name "users" ctx) (Py.join ", " (get_columns ctx)) nl_query)
  = Ok response ->
  Py.startswith "```" (Py.strip response) = false ->
  generate_sql_with_gemini model nl_query ctx gemini_key
  = terminated (Py.strip response).
Proof using Type.
  intros Hk Hm Hf. unfold generate_sql_with_gemini.
  destruct gemini_key; [contradiction|]. cbn zeta. rewrite Hm. cbn [bind].
  unfold clean_response. rewrite Hf. cbn [bind try_except].
  now rewrite strip_idempotent.
Qed.

(** X3. With a credential, of an answer that opens with a code fence only
    the text up to the next fence is kept, without a leading [sql] tag,
    stripped and terminated; what follows the closing fence is dropped. *)
Theorem fenced_answer_unwrapped (response piece tail : text) :
  gemini_key <> [] ->
  model (prompt (get_table_name "users" ctx) (Py.join ", " (get_columns ctx)) nl_query)
  = Ok response ->
  Py.strip response = "```" ++ piece ++ "```" ++ tail ->
  Forall (fun c => c <> "`"%char) piece ->
  generate_sql_with_gemini model nl_query ctx gemini_key
  = terminated (Py.strip (if Py.startswith "sql" piece then drop 3 piece else piece)).
Proof using Type.
  intros Hk Hm Hs Hp. unfold generate_sql_with_gemini.
  destruct gemini_key; [contradiction|]. cbn zeta. rewrite Hm. cbn [bind].
  unfold clean_response. rewrite Hs.
  replace (Py.startswith "```" ("```" ++ piece ++ "```" ++ tail)) with true
    by reflexivity.
  rewrite (split_fence piece tail Hp). reflexivity.
Qed.

End ModelAnswer.

Lemma plain_answer_returned_witness :
  generate_sql_with_gemini (fun _ => Ok "  SELECT name FROM users
") "all names" {| columns := Some ["id"; "name"]; table_name := Some "users" |} "key"
  = "SELECT name FROM users;".
Proof.
  rewrite (plain_answer_returned _ _ _ _ "  SELECT name FROM users
"); try reflexivity. discriminate.
Defined.

Lemma fenced_answer_unwrapped_witness :
  generate_sql_with_gemini (fun _ => Ok "```sql
SELECT name FROM users;
```
This query lists the names.") "all names"
    {| columns := Some ["id"; "name"]; table_name := Some "users" |} "key"
  = "SELECT name FROM users;".
Proof.
  rewrite (fenced_answer_unwrapped (fun _ => Ok "```sql
SELECT name FROM users;
```
This query lists the names.") "all names"
             {| columns := Some ["id"; "name"]; table_name := Some "users" |} "key"
             "```sql
SELECT name FROM users;
```
This query lists the names." "sql
SELECT name FROM users;
" "
This query lists the names."); try reflexivity.
  - discriminate.
  - repeat (constructor; [discriminate|]). constructor.
Defined.

(** A model call that raises, with a [marks] column in the context. *)
Lemma model_failure_gives_row_count_witness :
  generate_sql_with_gemini (fun _ => Raised "503 unavailable") "average marks"
    {| columns := Some ["id"; "marks"]; table_name := Some "grades" |} "key"
  = "SELECT COUNT(*) AS row_count FROM grades;".
Proof.
  refine (model_failure_gives_row_count (fun _ => Raised "503 unavailable")
            "average marks"
            {| columns := Some ["id"; "marks"]; table_name := Some "grades" |}
            "key" "503 unavailable" _ eq_refl).
  discriminate.
Defined.

(** ** The tables of [extract_sql] *)

Section Tables.
Import FileExtraction.

Lemma record_inserts_insert (ins : list text) (tables : gmap text table_entry)
    (n : text) :
  record_inserts ins tables n = <[n := with_inserts ins n (tables !! n)]> tables.
Proof.
  unfold record_inserts, with_inserts. now destruct (tables !! n).
Qed.

Lemma foldl_created_other (ms : list caps) (name : text) :
  forall tables : gmap text table_entry,
    name ∉ map (group_text 1) ms ->
    foldl record_created tables ms !! name = tables !! name.
Proof.
  induction ms as [|m ms IH]; intros tables H; cbn [foldl]; [reflexivity|].
  cbn [map] in H. apply not_elem_of_cons in H as [Hm Hms].
  rewrite IH by exact Hms.
  unfold record_created. apply lookup_insert_ne. congruence.
Qed.

Lemma foldl_created_last (ms1 ms2 : list caps) (m : caps) (name : text)
    (tables : gmap text table_entry) :
  group_text 1 m = name ->
  name ∉ map (group_text 1) ms2 ->
  foldl record_created tables (ms1 ++ m :: ms2) !! name
  = Some (created_entry name (group_text 2 m)).
Proof.
  intros Hm Hlater. rewrite foldl_app. cbn [foldl].
  rewrite foldl_created_other by exact Hlater.
  unfold record_created. rewrite Hm. apply lookup_insert_eq.
Qed.

Lemma last_occurrence (ms : list caps) (name : text) :
  name ∈ map (group_text 1) ms ->
  exists ms1 m ms2,
    ms = ms1 ++ m :: ms2 /\ group_text 1 m = name
    /\ name ∉ map (group_text 1) ms2.
Proof.
  induction ms as [|m ms IH]; cbn [map]; [intros H; inversion H|].
  intros H.
  destruct (decide (name ∈ map (group_text 1) ms)) as [Hin|Hnot].
  - destruct (IH Hin) as (ms1 & m0 & ms2 & -> & Hm0 & Hl).
    now exists (m :: ms1), m0, ms2.
  - apply elem_of_cons in H as [H|H]; [|contradiction].
    now exists [], m, ms.
Qed.

Lemma foldl_inserts (ins : list text) (names : list text) (name : text) :
  forall tables : gmap text table_entry,
    NoDup names ->
    foldl (record_inserts ins) tables names !! name
    = if decide (name ∈ names)
      then Some (with_inserts ins name (tables !! name))
      else tables !! name.
Proof.
  induction names as [|n names IH]; intros tables Hnd; cbn [foldl].
  - destruct (decide (name ∈ [])) as [H|_]; [inversion H | reflexivity].
  - apply NoDup_cons in Hnd as [Hn Hnd]. rewrite IH by exact Hnd.
    rewrite record_inserts_insert.
    destruct (decide (n = name)) as [->|Hne].
    + rewrite lookup_insert_eq.
      destruct (decide (name ∈ names)) as [Hin|_]; [contradiction|].
      destruct (decide (name ∈ name :: names)) as [_|Hno]; [reflexivity|].
      exfalso. apply Hno. now left.
    + rewrite lookup_insert_ne by exact Hne.
      destruct (decide (name ∈ names)) as [Hin|Hnot];
        destruct (decide (name ∈ n :: names)) as [Hin'|Hnot']; try reflexivity.
      * exfalso. apply Hnot'. now right.
      * exfalso. apply elem_of_cons in Hin' as [E|Hin']; [now apply Hne | now apply Hnot].
Qed.

(** The dict of [extract_sql], key by key. *)
Lemma extract_sql_lookup (sql_content name : text) :
  extract_sql sql_content !! name
  = let created :=
      foldl record_created ∅
        (findall IGNORECASE_DOTALL create_table_pattern sql_content) !! name in
    if decide (name ∈ inserted_names sql_content)
    then Some (with_inserts (inserted_names sql_content) name created)
    else created.
Proof.
  unfold extract_sql. fold (inserted_names sql_content).
  rewrite (foldl_inserts _ _ name _ (NoDup_remove_dups (inserted_names sql_content))).
  cbn zeta.
  destruct (decide (name ∈ remove_dups (inserted_names sql_content))) as [H|H];
    destruct (decide (name ∈ inserted_names sql_content)) as [H'|H'];
    try reflexivity; exfalso.
  - apply H'. rewrite elem_of_remove_dups in H. exact H.
  - apply H. rewrite elem_of_remove_dups. exact H'.
Qed.

Lemma count_positive (x : text) (xs : list text) : x ∈ xs -> 1 <= Py.count x xs.
Proof.
  unfold Py.count. intros H.
  assert (Hx : x ∈ filter (fun y => x = y) xs) by (apply list_elem_of_filter; auto).
  destruct (filter (fun y => x = y) xs); [inversion Hx | cbn; lia].
Qed.

(** X4. A table named by an INSERT statement has an entry whose count is
    the number of INSERT statements that name it, at least one, and whose
    summary spells that number out. *)
Theorem insert_statements_counted (sql_content name : text) :
  name ∈ inserted_names sql_content ->
  exists e : table_entry,
    extract_sql sql_content !! name = Some e
    /\ insert_count e = Some (Py.count name (inserted_names sql_content))
    /\ 1 <= Py.count name (inserted_names sql_content)
    /\ sample_inserts e
       = Some (Py.str_of_nat (Py.count name (inserted_names sql_content))
               ++ " INSERT statements found").
Proof.
  intros Hin. rewrite extract_sql_lookup. cbn zeta.
  destruct (decide (name ∈ inserted_names sql_content)); [|contradiction].
  eexists. split; [reflexivity|]. cbn. repeat split. now apply count_positive.
Qed.

(** X5. The tables of the result are exactly those named by a matched
    CREATE TABLE statement or by a matched INSERT statement. *)
Theorem extract_sql_keys (sql_content name : text) :
  is_Some (extract_sql sql_content !! name)
  <-> name ∈ created_names sql_content \/ name ∈ inserted_names sql_content.
Proof.
  rewrite extract_sql_lookup. cbn zeta.
  destruct (decide (name ∈ inserted_names sql_content)) as [Hi|Hi].
  - split; [now right | eauto].
  - split.
    + intros Hs.
      destruct (decide (name ∈ created_names sql_content)) as [Hc|Hc]; [now left|].
      exfalso. rewrite foldl_created_other, lookup_empty in Hs by exact Hc.
      now destruct Hs.
    + intros [Hc|Hc]; [|contradiction].
      destruct (last_occurrence _ _ Hc) as (ms1 & m & ms2 & Hs & Hm & Hl).
      rewrite Hs, (foldl_created_last ms1 ms2 m name ∅ Hm Hl). eauto.
Qed.

(** X6. When several CREATE TABLE statements name the same table, the
    last one gives the entry its columns; the INSERT statements add their
    count to it and leave the columns alone. *)
Theorem last_create_table_wins (sql_content name : text)
    (ms1 ms2 : list caps) (m : caps) :
  findall IGNORECASE_DOTALL create_table_pattern sql_content = ms1 ++ m :: ms2 ->
  group_text 1 m = name ->
  name ∉ map (group_text 1) ms2 ->
  exists e : table_entry,
    extract_sql sql_content !! name = Some e
    /\ entry_columns e
       = Some (take 20 (map (group_text 1)
                          (findall NOFLAGS column_pattern (group_text 2 m))))
    /\ create_statement e = Some ("CREATE TABLE " ++ name ++ " (...)")
    /\ insert_count e
       = if decide (name ∈ inserted_names sql_content)
         then Some (Py.count name (inserted_names sql_content))
         else None.
Proof.
  intros Hs Hm Hl. rewrite extract_sql_lookup. cbn zeta.
  rewrite Hs, (foldl_created_last ms1 ms2 m name ∅ Hm Hl).
  destruct (decide (name ∈ inserted_names sql_content));
    eexists; (split; [reflexivity|]); cbn; auto.
Qed.

(** X7. A table that only INSERT statements name has neither a column
    list nor a CREATE TABLE summary. *)
Theorem insert_only_table (sql_content name : text) (e : table_entry) :
  name ∉ created_names sql_content ->
  extract_sql sql_content !! name = Some e ->
  entry_columns e = None /\ create_statement e = None
  /\ name ∈ inserted_names sql_content.
Proof.
  intros Hc. rewrite extract_sql_lookup. cbn zeta.
  rewrite foldl_created_other, lookup_empty by exact Hc.
  destruct (decide (name ∈ inserted_names sql_content)); [|discriminate].
  intros [= <-]. cbn. auto.
Qed.

End Tables.

Lemma insert_statements_counted_witness :
  exists e : FileExtraction.table_entry,
    FileExtraction.extract_sql "INSERT INTO logs VALUES (1);
INSERT INTO users VALUES (1, 'ann');
INSERT INTO logs VALUES (2);" !! "logs" = Some e
    /\ FileExtraction.insert_count e = Some 2
    /\ FileExtraction.sample_inserts e = Some "2 INSERT statements found".
Proof.
  destruct (insert_statements_counted "INSERT INTO logs VALUES (1);
INSERT INTO users VALUES (1, 'ann');
INSERT INTO logs VALUES (2);" "logs") as (e & H1 & H2 & _ & H3).
  - vm_compute. repeat constructor.
  - exists e. split; [exact H1|]. split; [exact H2 | exact H3].
Defined.

Lemma last_create_table_wins_witness :
  exists e : FileExtraction.table_entry,
    FileExtraction.extract_sql "CREATE TABLE t (a INT);
CREATE TABLE t (b INT, c INT);
INSERT INTO t VALUES (1, 2);" !! "t" = Some e
    /\ FileExtraction.entry_columns e = Some ["b"; "c"]
    /\ FileExtraction.insert_count e = Some 1.
Proof.
  destruct (last_create_table_wins "CREATE TABLE t (a INT);
CREATE TABLE t (b INT, c INT);
INSERT INTO t VALUES (1, 2);" "t"
              [[(2, "a INT"); (1, "t")]] [] [(2, "b INT, c INT"); (1, "t")])
    as (e & H1 & H2 & _ & H3).
  - vm_compute. reflexivity.
  - reflexivity.
  - cbn. apply not_elem_of_nil.
  - exists e. split; [exact H1|]. split; [exact H2 | exact H3].
Defined.

Lemma insert_only_table_witness :
  FileExtraction.entry_columns
    {| FileExtraction.entry_columns := None;
       FileExtraction.create_statement := None;
       FileExtraction.insert_count := Some 1;
       FileExtraction.sample_inserts := Some "1 INSERT statements found" |} = None
  /\ "logs" ∈ inserted_names "CREATE TABLE t (a INT);
INSERT INTO logs VALUES (1);".
Proof.
  destruct (insert_only_table "CREATE TABLE t (a INT);
INSERT INTO logs VALUES (1);" "logs"
              {| FileExtraction.entry_columns := None;
                 FileExtraction.create_statement := None;
                 FileExtraction.insert_count := Some 1;
                 FileExtraction.sample_inserts := Some "1 INSERT statements found" |})
    as (H1 & _ & H3).
  - vm_compute. intros H. inversion H as [|? ? ? H']; inversion H'.
  - vm_compute. reflexivity.
  - split; [exact H1 | exact H3].
Defined.

(** ** Texts without the keywords *)

Lemma lit_rest_ignorecase (fl : flags) (l s : text) :
  ignorecase fl = true -> lit_rest fl l s = lit_rest IGNORECASE l s.
Proof.
  intros Hfl. revert s. induction l as [|a l IH]; intros s; cbn [lit_rest]; [reflexivity|].
  destruct s as [|c s]; [reflexivity|].
  replace (atom_ok fl (Lit a) c) with (atom_ok IGNORECASE (Lit a) c)
    by (unfold atom_ok; now rewrite Hfl).
  now rewrite IH.
Qed.

Lemma keyword_absent_no_match (fl : flags) (l : text) (rs : list regex) (s : text) :
  ignorecase fl = true ->
  occurs_ci l s = false ->
  findall fl (seqs (Str l :: rs)) s = [].
Proof.
  intros Hfl Hno.
  assert (H : Forall (fun _ : caps => False) (findall fl (seqs (Str l :: rs)) s)).
  { apply (findall_from_Forall fl _ _ s) with (p := []); [|reflexivity].
    intros p t rest g -> Hm. unfold match_here in Hm. cbn [seqs fold_right] in Hm.
    rewrite rmatch_seq_Str, lit_rest_ignorecase in Hm by exact Hfl.
    destruct (lit_rest IGNORECASE l t) as [r|] eqn:E; [|discriminate].
    apply lit_rest_startswith in E.
    apply occurs_ci_suffix, occurs_ci_head in Hno. congruence. }
  destruct (findall fl (seqs (Str l :: rs)) s); [reflexivity|].
  inversion H; contradiction.
Qed.



(** ** File names *)

Lemma has_char_app (c : ascii) (a b : text) :
  PyPath.has_char c (a ++ b) = PyPath.has_char c a || PyPath.has_char c b.
Proof. unfold PyPath.has_char. apply existsb_app. Qed.

Lemma rsplit_last_none (c : ascii) (s : text) :
  PyPath.rsplit_last c s = None <-> PyPath.has_char c s = false.
Proof.
  induction s as [|x s IH]; cbn [PyPath.rsplit_last PyPath.has_char existsb].
  - split; reflexivity.
  - fold (PyPath.has_char c s).
    destruct (PyPath.rsplit_last c s) as [[b a]|].
    + split; [discriminate|]. intros H. apply orb_false_iff in H as [_ H].
      apply IH in H. discriminate.
    + rewrite (proj1 IH eq_refl), orb_false_r.
      replace (Chars.eqb c x) with (Chars.eqb x c)
        by (unfold Chars.eqb; apply Ascii.eqb_sym).
      destruct (Chars.eqb x c); split; congruence.
Qed.

Lemma rsplit_last_app (c : ascii) (before after : text) :
  PyPath.has_char c after = false ->
  PyPath.rsplit_last c (before ++ c :: after) = Some (before, after).
Proof.
  intros H. induction before as [|x before IH]; cbn [app PyPath.rsplit_last].
  - rewrite (proj2 (rsplit_last_none c after) H).
    now rewrite (proj2 (chars_eqb_eq c c) eq_refl).
  - now rewrite IH.
Qed.

Lemma rsplit_last_spec (c : ascii) (s before after : text) :
  PyPath.rsplit_last c s = Some (before, after) <->
  s = before ++ c :: after /\ PyPath.has_char c after = false.
Proof.
  split.
  - revert before. induction s as [|x s IH]; intros before; cbn [PyPath.rsplit_last];
      [discriminate|].
    destruct (PyPath.rsplit_last c s) as [[b a]|] eqn:E.
    + intros [= <- <-]. destruct (IH b eq_refl) as [-> H]. now split.
    + destruct (Chars.eqb x c) eqn:Ex; [|discriminate].
      intros [= <- <-]. apply chars_eqb_eq in Ex. subst x.
      split; [reflexivity | now apply rsplit_last_none].
  - intros [-> H]. now apply rsplit_last_app.
Qed.

Lemma lower_app (a b : text) : Py.lower (a ++ b) = Py.lower a ++ Py.lower b.
Proof. apply map_app. Qed.

Lemma lower_dot (c : ascii) : Chars.lower c = "."%char -> c = "."%char.
Proof. by_cases_on_char c. Qed.

Lemma has_char_lower (c : ascii) (s : text) :
  Chars.lower c = c ->
  PyPath.has_char c (Py.lower s) = false -> PyPath.has_char c s = false.
Proof.
  intros Hc. unfold PyPath.has_char, Py.lower.
  induction s as [|x s IH]; cbn [map existsb]; [reflexivity|].
  intros H. apply orb_false_iff in H as [Hx Hs]. rewrite (IH Hs), orb_false_r.
  apply not_true_is_false. intros E. apply chars_eqb_eq in E. subst x.
  rewrite Hc in Hx. now rewrite (proj2 (chars_eqb_eq c c) eq_refl) in Hx.
Qed.

Lemma allowed_extension (ext : text) :
  bool_decide (ext ∈ Web.ALLOWED_EXTENSIONS) = true
  <-> ext = "csv" \/ ext = "sql" \/ ext = "schema".
Proof.
  rewrite bool_decide_eq_true. unfold Web.ALLOWED_EXTENSIONS.
  rewrite !elem_of_union, !elem_of_singleton. tauto.
Qed.

(** X9. [allowed_file] accepts exactly the names made of a stem, a dot
    and an extension without dot that is [csv], [sql] or [schema] up to
    case. *)
Theorem allowed_file_spec (filename : text) :
  Web.allowed_file filename = true <->
  exists stem ext : text,
    filename = stem ++ "." ++ ext
    /\ PyPath.has_char "." ext = false
    /\ (Py.lower ext = "csv" \/ Py.lower ext = "sql" \/ Py.lower ext = "schema").
Proof.
  unfold Web.allowed_file. split.
  - intros H. apply andb_true_iff in H as [_ H].
    destruct (PyPath.rsplit_last "." filename) as [[stem ext]|] eqn:E; [|discriminate].
    apply rsplit_last_spec in E as [-> Hext]. apply allowed_extension in H.
    now exists stem, ext.
  - intros (stem & ext & -> & Hext & Hl).
    cbn [app]. rewrite (rsplit_last_app "." stem ext Hext).
    rewrite has_char_app. cbn [PyPath.has_char existsb].
    rewrite (proj2 (chars_eqb_eq "." ".") eq_refl), orb_true_r. cbn [andb orb].
    now apply allowed_extension.
Qed.

Lemma endswith_lower_extension (p e : text) :
  PyPath.has_char "." e = false -> Py.lower e = e ->
  Py.endswith ("."%char :: e) (Py.lower p) = true <->
  exists stem ext,
    p = stem ++ "." ++ ext /\ PyPath.has_char "." ext = false /\ Py.lower ext = e.
Proof.
  intros He Hle. rewrite endswith_spec. split.
  - intros [pre H]. unfold Py.lower in H. apply map_eq_app in H as (stem & t & -> & Hs & Ht).
    destruct t as [|d ext]; [discriminate|]. cbn [map] in Ht. injection Ht as Hd Hext.
    apply lower_dot in Hd. subst d. exists stem, ext. repeat split.
    + apply (has_char_lower "." ext eq_refl). unfold Py.lower. now rewrite Hext.
    + exact Hext.
  - intros (stem & ext & -> & _ & Hext). exists (Py.lower stem).
    rewrite lower_app. cbn [app]. unfold Py.lower at 2. cbn [map].
    fold (Py.lower ext). now rewrite Hext.
Qed.

Lemma allowed_file_endswith (p : text) :
  Web.allowed_file p
  = Py.endswith ".csv" (Py.lower p)
    || (Py.endswith ".sql" (Py.lower p) || Py.endswith ".schema" (Py.lower p)).
Proof.
  apply eq_true_iff_eq. rewrite allowed_file_spec, !orb_true_iff.
  rewrite (endswith_lower_extension p "csv"), (endswith_lower_extension p "sql"),
    (endswith_lower_extension p "schema") by reflexivity.
  split.
  - intros (stem & ext & Hp & Hd & [H|[H|H]]); [left|right; left|right; right];
      now exists stem, ext.
  - intros [H|[H|H]]; destruct H as (stem & ext & Hp & Hd & H);
      exists stem, ext; auto.
Qed.

(** ** The handler of /api/generate-sql *)

Section HandlerProperties.
Context {conn scalar : Type}.
Variable e : App.env conn scalar.

(** X10. The handler reports "Unsupported file type" for exactly the
    paths that [allowed_file] rejects: the dispatch on the lower-cased
    path and the test on upload agree. *)
Theorem dispatch_agrees_with_allowed_file (schema_path : text) :
  App.load_context e schema_path = Ok None <-> Web.allowed_file schema_path = false.
Proof using Type.
  rewrite allowed_file_endswith. unfold App.load_context.
  destruct (Py.endswith ".csv" (Py.lower schema_path)).
  - cbn [orb]. split; [|discriminate].
    destruct (App.read_csv e schema_path) as [df|msg]; cbn [bind]; [|discriminate].
    destruct (App.to_sql e df "uploaded_table" (App.connect e)) as [c [[]|msg]];
      discriminate.
  - cbn [orb].
    destruct (Py.endswith ".sql" (Py.lower schema_path)
              || Py.endswith ".schema" (Py.lower schema_path)).
    + split; [|discriminate].
      destruct (App.read_file e schema_path) as [sql_text|msg]; cbn [bind];
        [|discriminate].
      destruct (load_sql_schema_into_sqlite _ _ _ _ _) as [[[]|msg] w]; discriminate.
    + split; reflexivity.
Qed.


End HandlerProperties.

Section Requests.
Context {conn scalar : Type}.
Variable e : App.env conn scalar.

(** X12. Without a credential, a request on a tabular file that loads is
    answered with the heuristic query over [uploaded_table]: the average
    of [marks] when a column of the file is [marks] up to case, the row
    count otherwise; the status is 200 or, when the query fails, 500. *)
Theorem csv_request_without_credential (nl_query schema_path : text)
    (df : FileExtraction.DataFrame scalar) (c : conn) :
  App.GEMINI_KEY e = [] ->
  nl_query <> [] ->
  App.path_exists e schema_path = true ->
  Py.endswith ".csv" (Py.lower schema_path) = true ->
  App.read_csv e schema_path = Ok df ->
  App.to_sql e df "uploaded_table" (App.connect e) = (c, Ok tt) ->
  exists (sql : text) (rest : App.json scalar) (key : text) (status : nat),
    App.generate_sql e (Some nl_query) (Some schema_path)
    = (App.JObj [("sql", App.JStr sql); (key, rest)], status)
    /\ (status = 200 /\ key = "result" \/ status = 500 /\ key = "error")
    /\ (Exists matches_marks (FileExtraction.df_columns df) ->
        sql = average_query "uploaded_table")
    /\ (~ Exists matches_marks (FileExtraction.df_columns df) ->
        sql = row_count_query "uploaded_table").
Proof using Type.
  intros Hkey Hq Hex Hcsv Hread Hsql.
  unfold App.generate_sql.
  destruct nl_query as [|a nl]; [contradiction|].
  destruct schema_path as [|b p]; [discriminate Hcsv|].
  rewrite Hex. cbn [negb]. unfold App.load_context.
  rewrite Hcsv, Hread. cbn [bind]. rewrite Hsql. cbn [bind try_except].
  unfold App.answer. rewrite Hkey.
  set (sql := generate_sql_with_gemini (App.model e) (a :: nl) _ []).
  assert (Hsqls :
    (Exists matches_marks (FileExtraction.df_columns df) ->
     sql = average_query "uploaded_table")
    /\ (~ Exists matches_marks (FileExtraction.df_columns df) ->
        sql = row_count_query "uploaded_table")).
  { subst sql. unfold generate_sql_with_gemini.
    cbv [get_columns get_table_name default from_option id columns table_name].
    destruct (Py.contains "marks" (map Py.lower (FileExtraction.df_columns df))) eqn:E.
    - split; [reflexivity|]. intros H. exfalso. apply H. now apply contains_marks.
    - split; [|reflexivity]. intros H. apply contains_marks in H. congruence. }
  destruct (App.read_sql_query e sql c) as [rows|msg].
  - exists sql, (App.JArr (map App.json_of_record rows)), "result", 200. auto.
  - exists sql, (App.JStr ("SQL execution failed: " ++ msg)), "error", 500. auto.
Qed.

(** X13. On a schema file that can be read, nothing the engine does
    while loading makes the request fail: whatever [execute], [commit] and
    the introspection return or raise, a query is generated for the table
    name inferred from the file; without a credential it is one of the
    two heuristic queries, and the row count when introspection raises. *)
Theorem sql_request_survives_load (nl_query schema_path sql_text : text) :
  nl_query <> [] ->
  App.path_exists e schema_path = true ->
  Py.endswith ".csv" (Py.lower schema_path) = false ->
  Py.endswith ".sql" (Py.lower schema_path)
  || Py.endswith ".schema" (Py.lower schema_path) = true ->
  App.read_file e schema_path = Ok sql_text ->
  exists (sql : text) (rest : App.json scalar) (key : text) (status : nat),
    App.generate_sql e (Some nl_query) (Some schema_path)
    = (App.JObj [("sql", App.JStr sql); (key, rest)], status)
    /\ (status = 200 /\ key = "result" \/ status = 500 /\ key = "error")
    /\ (App.GEMINI_KEY e = [] ->
        sql = average_query (infer_table_name_from_sql sql_text)
        \/ sql = row_count_query (infer_table_name_from_sql sql_text))
    /\ (App.GEMINI_KEY e = [] ->
        (forall c stmt, exists msg, App.table_info e c stmt = Raised msg) ->
        sql = row_count_query (infer_table_name_from_sql sql_text)).
Proof using Type.
  intros Hq Hex Hcsv Hsql Hread.
  unfold App.generate_sql.
  destruct nl_query as [|a nl]; [contradiction|].
  destruct schema_path as [|b p]; [discriminate Hsql|].
  rewrite Hex. cbn [negb]. unfold App.load_context.
  rewrite Hcsv, Hsql, Hread. cbn [bind].
  unfold load_sql_schema_into_sqlite, execute_statements. rewrite Hread.
  cbv beta iota zeta.
  destruct (for_each_attempts (App.execute e) (App.commit e)
              (Py.split ";" (sanitize sql_text))
              {| db := App.connect e; attempted := [] |}) as (w & Hw & _).
  cbv zeta in Hw. rewrite Hw.
  cbn [bind try_except]. unfold App.answer.
  set (name := infer_table_name_from_sql sql_text).
  set (cols := try_except (App.table_info e (db w) _) _).
  set (sql := generate_sql_with_gemini (App.model e) (a :: nl) _ (App.GEMINI_KEY e)).
  assert (Hsqls :
    (App.GEMINI_KEY e = [] -> sql = average_query name \/ sql = row_count_query name)
    /\ (App.GEMINI_KEY e = [] ->
        (forall c stmt, exists msg, App.table_info e c stmt = Raised msg) ->
        sql = row_count_query name)).
  { subst sql. split.
    - intros ->. unfold generate_sql_with_gemini.
      cbv [get_columns get_table_name default from_option id columns table_name].
      destruct (Py.contains "marks" (map Py.lower cols)); auto.
    - intros -> Hinfo. unfold generate_sql_with_gemini.
      cbv [get_columns get_table_name default from_option id columns table_name].
      subst cols.
      destruct (Hinfo (db w) ("PRAGMA table_info(" ++ name ++ ");")) as [msg ->].
      reflexivity. }
  destruct (App.read_sql_query e sql (db w)) as [rows|msg].
  - exists sql, (App.JArr (map App.json_of_record rows)), "result", 200.
    destruct Hsqls. auto.
  - exists sql, (App.JStr ("SQL execution failed: " ++ msg)), "error", 500.
    destruct Hsqls. auto.
Qed.

(** X14. The command line entry point prints the body that the web
    handler answers, for the same request and collaborators, as long as
    the listing of the tables does not raise. *)
Theorem main_prints_handler_body (list_tables : conn -> outcome (list text))
    (prog nl_query schema_path : text) (more : list text) :
  nl_query <> [] ->
  schema_path <> [] ->
  App.path_exists e schema_path = true ->
  (forall c, exists tables, list_tables c = Ok tables) ->
  Cli.main e list_tables (prog :: nl_query :: schema_path :: more)
  = fst (App.generate_sql e (Some nl_query) (Some schema_path)).
Proof using Type.
  intros Hq Hp Hex Hlist.
  unfold Cli.main, App.generate_sql, App.load_context.
  destruct nl_query as [|a nl]; [contradiction|].
  destruct schema_path as [|b p]; [contradiction|].
  rewrite Hex. cbn [negb].
  destruct (Py.endswith ".csv" (Py.lower (b :: p))).
  - destruct (App.read_csv e (b :: p)) as [df|msg]; cbn [bind try_except fst];
      [|reflexivity].
    destruct (App.to_sql e df "uploaded_table" (App.connect e)) as [c [[]|msg]];
      cbn [bind try_except fst]; [|reflexivity].
    unfold App.answer. destruct (App.read_sql_query e _ c); reflexivity.
  - destruct (Py.endswith ".sql" (Py.lower (b :: p))
              || Py.endswith ".schema" (Py.lower (b :: p)));
      [|reflexivity].
    destruct (App.read_file e (b :: p)) as [sql_text|msg]; cbn [bind try_except fst];
      [|reflexivity].
    destruct (load_sql_schema_into_sqlite _ _ _ _ _) as [[[]|msg] w];
      cbn [bind try_except fst]; [|reflexivity].
    destruct (Hlist (db w)) as [tables ->]. cbn [bind try_except fst].
    unfold App.answer. destruct (App.read_sql_query e _ (db w)); reflexivity.
Qed.

End Requests.

Lemma csv_request_without_credential_witness :
  exists (sql : text) (rest : App.json nat) (key : text) (status : nat),
    App.generate_sql failing_env (Some "how many rows?") (Some "data.CSV")
    = (App.JObj [("sql", App.JStr sql); (key, rest)], status)
    /\ sql = row_count_query "uploaded_table".
Proof.
  destruct (csv_request_without_credential failing_env "how many rows?" "data.CSV"
              {| FileExtraction.df_columns := ["id"; "name"];
                 FileExtraction.df_rows := [[1; 2]] |} tt)
    as (sql & rest & key & status & H1 & _ & _ & H2);
    try reflexivity; try discriminate.
  exists sql, rest, key, status. split; [exact H1|]. apply H2.
  intros H. apply contains_marks in H. vm_compute in H. discriminate.
Defined.

Lemma sql_request_survives_load_witness :
  exists (sql : text) (rest : App.json nat) (key : text) (status : nat),
    App.generate_sql rejecting_env (Some "how many orders?") (Some "dump.SQL")
    = (App.JObj [("sql", App.JStr sql); (key, rest)], status)
    /\ sql = row_count_query "orders".
Proof.
  destruct (sql_request_survives_load rejecting_env "how many orders?" "dump.SQL"
              "CREATE TABLE `users` (id INT);
CREATE TABLE orders (id INT, marks INT);
")
    as (sql & rest & key & status & H1 & _ & _ & H2);
    try reflexivity; try discriminate.
  exists sql, rest, key, status. split; [exact H1|].
  rewrite H2; [vm_compute; reflexivity | reflexivity |].
  intros c stmt. now exists "database is locked".
Defined.

Lemma main_prints_handler_body_witness :
  Cli.main failing_env (fun _ => Ok []) ["auto_analyzer.py"; "how many rows?"; "data.csv"]
  = App.JObj [("sql", App.JStr "SELECT COUNT(*) AS row_count FROM uploaded_table;");
              ("error", App.JStr "SQL execution failed: no such table: uploaded_table")].
Proof.
  etransitivity.
  - apply (main_prints_handler_body failing_env);
      [discriminate | discriminate | reflexivity | intros c; now exists []].
  - reflexivity.
Defined.

(** ** Comments in the schema file *)

Lemma lstrip_mid (l : text) (c : ascii) (t : text) :
  Chars.is_space c = false -> exists z, Py.lstrip (l ++ c :: t) = z ++ c :: t.
Proof.
  intros Hc. induction l as [|d l IH]; cbn [app Py.lstrip].
  - rewrite Hc. now exists [].
  - destruct (Chars.is_space d); [exact IH | now exists (d :: l)].
Qed.

(** Stripping on the right keeps a prefix whose last character is no
    white space. *)
Lemma rstrip_keeps_prefix (pre : text) (c : ascii) (s : text) :
  Chars.is_space c = false ->
  exists z, Py.rstrip ((pre ++ [c]) ++ s) = (pre ++ [c]) ++ z.
Proof.
  intros Hc. destruct (lstrip_mid (rev s) c (rev pre) Hc) as [z Hz].
  exists (rev z). unfold Py.rstrip.
  rewrite (rev_app_distr (pre ++ [c]) s), (rev_app_distr pre [c]).
  cbn [rev app]. rewrite Hz, rev_app_distr. cbn [rev].
  now rewrite rev_involutive.
Qed.

Lemma comment_not_runnable (ws body : text) :
  Forall (fun c => Chars.is_space c = true) ws ->
  runnable (Py.strip (ws ++ "--" ++ body)) = false.
Proof.
  intros Hws. unfold Py.strip.
  rewrite lstrip_skip_while, skip_while_app by exact Hws.
  rewrite skip_while_stop by reflexivity.
  destruct (rstrip_keeps_prefix ["-"%char] "-" body eq_refl) as [z Hz].
  cbn [app] in Hz. change ("--" ++ body) with ("-"%char :: "-"%char :: body).
  rewrite Hz. unfold runnable. cbn. apply andb_false_r.
Qed.

Lemma split_semicolon (piece rest : text) :
  PyPath.has_char ";" piece = false ->
  Py.split ";" (piece ++ ";" ++ rest) = piece :: Py.split ";" rest.
Proof.
  unfold Py.split. induction piece as [|c piece IH]; intros H.
  - reflexivity.
  - cbn [PyPath.has_char existsb] in H. apply orb_false_iff in H as [Hc Hp].
    change ((c :: piece) ++ ";" ++ rest) with (c :: (piece ++ ";" ++ rest)).
    set (tail := piece ++ ";" ++ rest) in *.
    cbn [Py.split_from Py.startswith]. rewrite Hc. cbn [andb].
    now rewrite (IH Hp).
Qed.

Section Comments.
Context {conn : Type}.
Variable execute : conn -> text -> conn * outcome unit.
Variable commit : conn -> conn * outcome unit.

(** X15. A piece of the sanitized text that begins, after white space,
    with [--] is skipped whole: whatever stands between the comment mark
    and the next semicolon, also on later lines, is never handed to the
    engine. *)
Theorem commented_piece_skipped (ws body rest : text) (w : world conn) :
  Forall (fun c => Chars.is_space c = true) ws ->
  PyPath.has_char ";" (ws ++ "--" ++ body) = false ->
  execute_statements execute commit ((ws ++ "--" ++ body) ++ ";" ++ rest) w
  = execute_statements execute commit rest w.
Proof using Type.
  intros Hws Hsemi. unfold execute_statements.
  rewrite (split_semicolon _ rest Hsemi). cbn [for_each].
  unfold then_ at 1. cbv zeta. rewrite (comment_not_runnable ws body Hws).
  reflexivity.
Qed.

End Comments.

Lemma commented_piece_skipped_witness :
  snd (execute_statements (fun (c : nat) _ => (S c, Ok tt)) (fun c => (c, Ok tt))
         "-- users of the shop
CREATE TABLE users (id INT);
CREATE TABLE orders (id INT);" {| db := 0; attempted := [] |})
  = {| db := 1; attempted := ["CREATE TABLE orders (id INT)"] |}.
Proof.
  etransitivity.
  - apply (f_equal snd).
    apply (commented_piece_skipped (fun (c : nat) _ => (S c, Ok tt)) (fun c => (c, Ok tt))
             [] " users of the shop
CREATE TABLE users (id INT)" "
CREATE TABLE orders (id INT);" {| db := 0; attempted := [] |});
      [constructor | reflexivity].
  - vm_compute. reflexivity.
Defined.

(** ** The upload route *)

Lemma last_dot_unique (base1 ext1 base2 ext2 : text) :
  PyPath.has_char "." ext1 = false -> PyPath.has_char "." ext2 = false ->
  base1 ++ "."%char :: ext1 = base2 ++ "."%char :: ext2 ->
  ext1 = ext2.
Proof.
  intros H1 H2 E.
  pose proof (rsplit_last_app "." base1 ext1 H1) as R1.
  pose proof (rsplit_last_app "." base2 ext2 H2) as R2.
  rewrite E in R1. congruence.
Qed.

Lemma splitext_ext_shape (name : text) :
  PyPath.splitext_ext name = []
  \/ exists stem ext,
       PyPath.splitext_ext name = "."%char :: ext
       /\ PyPath.basename name = stem ++ "."%char :: ext
       /\ PyPath.has_char "." ext = false.
Proof.
  unfold PyPath.splitext_ext.
  destruct (PyPath.rsplit_last "." (PyPath.basename name)) as [[stem ext]|] eqn:E;
    [|now left].
  apply rsplit_last_spec in E as [E Hext].
  destruct (existsb _ stem); [|now left].
  right. now exists stem, ext.
Qed.

Lemma basename_suffix (name : text) : exists dir, name = dir ++ PyPath.basename name.
Proof.
  unfold PyPath.basename.
  destruct (PyPath.rsplit_last "/" name) as [[dir b]|] eqn:E.
  - apply rsplit_last_spec in E as [-> _]. exists (dir ++ ["/"%char]).
    now rewrite <- app_assoc.
  - now exists [].
Qed.

Lemma endswith_extension (base ext1 ext2 : text) :
  PyPath.has_char "." ext1 = false -> PyPath.has_char "." ext2 = false ->
  Py.endswith ("."%char :: ext1) (base ++ "."%char :: ext2) = true -> ext1 = ext2.
Proof.
  intros H1 H2 E. apply endswith_spec in E as [pre E].
  symmetry. now apply (last_dot_unique base ext2 pre ext1).
Qed.

Section Upload.
Context {scalar : Type}.
Variable e : Web.env scalar.

(** X16. An upload whose extension is not written in lower case is
    answered "Unsupported file type": when the name passes [allowed_file]
    (which compares in lower case), the temporary file keeps the extension
    as it was written and the dispatch, which compares it as it is, finds
    no extractor. *)
Theorem upload_extension_case (file : Web.upload) (base : text) :
  PyPath.splitext_ext (Web.filename file)
  <> Py.lower (PyPath.splitext_ext (Web.filename file)) ->
  Web.make_temp e (PyPath.splitext_ext (Web.filename file))
  = Ok (base ++ PyPath.splitext_ext (Web.filename file)) ->
  Web.save e file (base ++ PyPath.splitext_ext (Web.filename file)) = Ok tt ->
  Web.extract_schema e (Some file) = Web.unsupported.
Proof using Type.
  intros Hcase Htemp Hsave. unfold Web.extract_schema.
  destruct (Web.filename file) as [|a name] eqn:Hname;
    [exfalso; now apply Hcase|].
  change (text_eqb (a :: name) []) with false. cbv iota.
  destruct (negb (Web.allowed_file (a :: name))); [reflexivity|].
  rewrite Htemp. cbn [bind]. rewrite Hsave. cbn [bind].
  destruct (splitext_ext_shape (a :: name)) as [H|(stem & ext & H & _ & Hext)];
    [rewrite H in Hcase; now exfalso; apply Hcase|].
  rewrite H in *.
  assert (Hno : forall x, PyPath.has_char "." x = false -> Py.lower x = x ->
                          Py.endswith ("."%char :: x) (base ++ "."%char :: ext) = false).
  { intros x Hx Hlx. apply not_true_is_false. intros E.
    apply (endswith_extension base x ext Hx Hext) in E. subst x.
    apply Hcase. unfold Py.lower in *. cbn [map]. now rewrite Hlx. }
  rewrite (Hno "csv"), (Hno "sql"), (Hno "schema") by reflexivity.
  reflexivity.
Qed.

(** X17. An upload that [allowed_file] accepts and whose extension is
    written in lower case reaches the extractor of its kind: the tabular
    one for [.csv], under the base name of the upload, and the SQL one
    for [.sql] and [.schema]; a failure of the extractor is answered with
    status 500. *)
Theorem upload_extracted (file : Web.upload) (base : text) :
  Web.allowed_file (Web.filename file) = true ->
  PyPath.splitext_ext (Web.filename file) <> [] ->
  PyPath.splitext_ext (Web.filename file)
  = Py.lower (PyPath.splitext_ext (Web.filename file)) ->
  Web.make_temp e (PyPath.splitext_ext (Web.filename file))
  = Ok (base ++ PyPath.splitext_ext (Web.filename file)) ->
  Web.save e file (base ++ PyPath.splitext_ext (Web.filename file)) = Ok tt ->
  let path := base ++ PyPath.splitext_ext (Web.filename file) in
  (PyPath.splitext_ext (Web.filename file) = ".csv"
   /\ Web.extract_schema e (Some file)
      = match FileExtraction.extract_csv (Web.read_csv e) path with
        | Ok s => Web.Extracted path (Web.CsvData (PyPath.basename (Web.filename file)) s)
        | Raised msg => Web.Refused msg 500
        end)
  \/ ((PyPath.splitext_ext (Web.filename file) = ".sql"
       \/ PyPath.splitext_ext (Web.filename file) = ".schema")
      /\ Web.extract_schema e (Some file)
         = match Web.read_file e path with
           | Ok sql_content =>
               Web.Extracted path (Web.SqlData (FileExtraction.extract_sql sql_content))
           | Raised msg => Web.Refused msg 500
           end).
Proof using Type.
  intros Hallowed Hsuffix Hlower Htemp Hsave path.
  unfold Web.extract_schema.
  destruct (Web.filename file) as [|a name] eqn:Hname; [discriminate Hallowed|].
  change (text_eqb (a :: name) []) with false. cbv iota.
  rewrite Hallowed. cbn [negb]. rewrite Htemp. cbn [bind]. rewrite Hsave. cbn [bind].
  fold path.
  apply allowed_file_spec in Hallowed as (stem & ext & Hsplit & Hext & Hkind).
  destruct (splitext_ext_shape (a :: name)) as [H|(bstem & bext & H & Hbase & Hbext)];
    [contradiction|].
  destruct (basename_suffix (a :: name)) as [dir Hdir].
  rewrite Hbase, app_assoc in Hdir. rewrite Hsplit in Hdir. cbn [app] in Hdir.
  apply last_dot_unique in Hdir; [|assumption|assumption]. subst bext.
  assert (Hle : Py.lower ext = ext).
  { rewrite H in Hlower. unfold Py.lower in Hlower |- *. cbn [map] in Hlower.
    now injection Hlower. }
  rewrite Hle in Hkind. subst path. rewrite H.
  destruct Hkind as [ -> | [ -> | -> ] ].
  - left. split; [reflexivity|].
    rewrite (endswith_app ".csv" base).
    now destruct (FileExtraction.extract_csv (Web.read_csv e) (base ++ ".csv")).
  - right. split; [now left|].
    replace (Py.endswith ".csv" (base ++ ".sql")) with false.
    + rewrite (endswith_app ".sql" base). cbn [orb].
      now destruct (Web.read_file e (base ++ ".sql")).
    + symmetry. apply not_true_is_false. intros E.
      now apply (endswith_extension base "csv" "sql") in E.
  - right. split; [now right|].
    replace (Py.endswith ".csv" (base ++ ".schema")) with false.
    + rewrite (endswith_app ".schema" base), orb_true_r.
      now destruct (Web.read_file e (base ++ ".schema")).
    + symmetry. apply not_true_is_false. intros E.
      now apply (endswith_extension base "csv" "schema") in E.
Qed.

End Upload.

Lemma upload_extension_case_witness :
  Web.allowed_file "grades.CSV" = true
  /\ Web.extract_schema upload_env
       (Some {| Web.filename := "grades.CSV"; Web.content := "id,marks" |})
     = Web.unsupported.
Proof.
  split; [reflexivity|].
  apply (upload_extension_case upload_env
           {| Web.filename := "grades.CSV"; Web.content := "id,marks" |}
           "/tmp/tmpk3x9a_2b"); [discriminate | reflexivity | reflexivity].
Defined.

Lemma upload_extracted_witness :
  exists s : FileExtraction.csv_schema nat,
    Web.extract_schema upload_env
      (Some {| Web.filename := "reports/grades.csv"; Web.content := "id,marks" |})
    = Web.Extracted "/tmp/tmpk3x9a_2b.csv" (Web.CsvData "grades.csv" s).
Proof.
  destruct (upload_extracted upload_env
              {| Web.filename := "reports/grades.csv"; Web.content := "id,marks" |}
              "/tmp/tmpk3x9a_2b") as [[_ H]|[[H|H] _]];
    try reflexivity; try discriminate.
  eexists. exact H.
Defined.
